(** * YOLOv9-ONNX: the detection post-processing of [yolo/engine/inference copy.py]

    A shallow embedding of [YOLOv9.postprocess], [YOLOv9.get_label_name],
    [YOLOv9.preprocess] and [YOLOv9.detect], with the two library calls the
    result depends on ([cv2.dnn.NMSBoxes] and numpy indexing).

    Numbers.  The arrays of the source hold float32 values (scores, raw box
    fields) and int32 values (rescaled boxes).  A finite float is embedded
    as the rational [Q] it denotes.  Comparisons, maxima and arg-maxima are
    taken on these rationals; a threshold is the rational the detector
    holds, which is what the source compares with when the threshold is a
    float32 value.  The arithmetic of lines 86-88 is embedded
    with its rounding: division in float32, multiplication in float64 cast
    back to float32, both to the nearest value with ties to even, and the
    cast to int32.  The suppression works on the int32 boxes as integers
    [Z]. *)

From Stdlib Require Import String List ZArith QArith Qround Qabs Qpower Bool Lia
  Lqa Sorted.
From Stdlib Require Qcanon.
Import ListNotations.

Local Open Scope Z_scope.

(** ** Exceptions and results *)

(** The Python exceptions that [postprocess] can raise. *)
Inductive exn : Type :=
| IndexError_too_many_indices   (* [predictions[:, 4:]] on an array that is not 2-D *)
| ValueError_zero_size_reduction (* [np.max] / [np.argmax] along an axis of length 0 *)
| LookupError_classes           (* [self.classes[class_id]]: IndexError (list) or
                                   KeyError (dict), both [LookupError]s *)
| AttributeError_no_image.      (* [self.img.shape] while [self.img] is [None] *)

Inductive result (A : Type) : Type :=
| Ok (a : A)
| Raise (e : exn).
Arguments Ok {A} a.
Arguments Raise {A} e.

Definition bind {A B : Type} (r : result A) (k : A -> result B) : result B :=
  match r with
  | Ok a => k a
  | Raise e => Raise e
  end.

Notation "x <- r ;; k" := (bind r (fun x => k))
  (at level 61, r at next level, right associativity).

(** ** Comparisons on scores *)

(** [x < y] as a boolean, the comparison of [scores > self.conf_threshold]
    and of OpenCV's [scores[i] > threshold]. *)
Definition Qltb (x y : Q) : bool := negb (Qle_bool y x).

(** Truncation toward zero. *)
Definition Qtrunc (q : Q) : Z := Z.quot (Qnum q) (Zpos (Qden q)).

(** ** Floating-point arithmetic *)

(** The value of a float32 or float64 computation: a finite value, or one
    of the infinities and NaN, which the cast to int32 does not tell
    apart. *)
Inductive float : Type :=
| Finite (q : Q)
| NotFinite.

Definition pow2 (k : Z) : Q := (2 ^ k)%Q.

(** The exponent of a positive rational: the [e] with
    [2^e <= q < 2^(e+1)]. *)
Definition ilog2 (q : Q) : Z :=
  let e0 := Z.log2 (Qnum q) - Z.log2 (Zpos (Qden q)) in
  if Qle_bool (pow2 e0) q then e0 else e0 - 1.

(** The nearest integer, the even one of two equally near. *)
Definition round_half_even (q : Q) : Z :=
  let f := Qfloor q in
  match (q - inject_Z f ?= 1 # 2)%Q with
  | Lt => f
  | Gt => f + 1
  | Eq => if Z.even f then f else f + 1
  end.

(** IEEE 754 rounding to nearest, ties to even, in the binary format of
    precision [prec] and exponent range [emin .. emax]: the multiple of the
    quantum [2^(e - prec + 1)] (not below that of the subnormal numbers)
    nearest to [q]; an infinity from [2^(emax + 1)] on. *)
Definition round_binary (prec emin emax : Z) (q : Q) : float :=
  let a := Qabs q in
  if Qle_bool a 0 then Finite 0
  else
    let e := ilog2 a in
    let qe := Z.max (e - (prec - 1)) (emin - (prec - 1)) in
    let r := (inject_Z (round_half_even (a / pow2 qe)) * pow2 qe)%Q in
    if Qle_bool (pow2 (emax + 1)) r then NotFinite
    else Finite (Qred (if Qle_bool 0 q then r else - r)).

Definition round_float32 : Q -> float := round_binary 24 (-126) 127.

Definition round_float64 : Q -> float := round_binary 53 (-1022) 1023.

(** [np.divide(b, n, dtype=np.float32)] for a float32 [b] and an int64 [n]:
    [n] is cast to float32 and the quotient is rounded to float32; a zero
    divisor gives an infinity or NaN. *)
Definition divide_float32 (b : Q) (n : Z) : float :=
  match round_float32 (inject_Z n) with
  | Finite d => if Qeq_bool d 0 then NotFinite else round_float32 (b / d)
  | NotFinite => NotFinite
  end.

(** [x *= n] for a float32 [x] and an int64 [n]: the product is taken in
    float64 and cast back to float32. *)
Definition imul_float32 (x : float) (n : Z) : float :=
  match x, round_float64 (inject_Z n) with
  | Finite a, Finite w =>
      match round_float64 (a * w) with
      | Finite p => round_float32 p
      | NotFinite => NotFinite
      end
  | _, _ => NotFinite
  end.

(** [astype(np.int32)]: truncation toward zero; outside the int32 range,
    and for infinities and NaN, the conversion gives [-2^31] (the x86-64
    conversion instruction). *)
Definition astype_int32 (x : float) : Z :=
  match x with
  | Finite q =>
      let t := Qtrunc q in
      if (- 2 ^ 31 <=? t) && (t <? 2 ^ 31) then t else - 2 ^ 31
  | NotFinite => - 2 ^ 31
  end.

(** ** Arrays *)

(** What [np.squeeze] can return for an array of shape (1, F, N): a scalar,
    a vector, or a 2-D array given by the length of its second axis and its
    rows (the length is kept apart: an array may have no row). *)
Inductive ndarray : Type :=
| Arr0 (x : Q)
| Arr1 (v : list Q)
| Arr2 (ncols : nat) (rows : list (list Q)).

(** The raw output: the F channel rows (each of N anchors) of the single
    batch entry of [session.run(...)[0]], shape (1, F, N). *)
Definition tensor : Type := list (list Q).

Definition n_anchors (outputs : tensor) : nat :=
  match outputs with
  | [] => 0%nat
  | r :: _ => length r
  end.

(** [np.squeeze]: every axis of length 1 is dropped, the batch axis and also
    a channel or anchor axis of length 1. *)
Definition squeeze (outputs : tensor) : ndarray :=
  match outputs with
  | [r] =>
      match r with
      | [x] => Arr0 x
      | _ => Arr1 r
      end
  | _ =>
      if Nat.eqb (n_anchors outputs) 1
      then Arr1 (map (fun r => nth 0 r 0%Q) outputs)
      else Arr2 (n_anchors outputs) outputs
  end.

(** [.T]: transposition of a 2-D array, nothing on fewer axes. *)
Definition T (a : ndarray) : ndarray :=
  match a with
  | Arr2 ncols rows =>
      Arr2 (length rows)
           (map (fun i => map (fun r => nth i r 0%Q) rows) (seq 0 ncols))
  | _ => a
  end.

(** [a[:, k:]]. *)
Definition cols_from (k : nat) (a : ndarray) : result ndarray :=
  match a with
  | Arr2 ncols rows => Ok (Arr2 (ncols - k) (map (skipn k) rows))
  | _ => Raise IndexError_too_many_indices
  end.

Definition rows_of (a : ndarray) : list (list Q) :=
  match a with
  | Arr2 _ rows => rows
  | _ => []
  end.

Definition ncols_of (a : ndarray) : nat :=
  match a with
  | Arr2 ncols _ => ncols
  | _ => 0%nat
  end.

(** [np.max] of one row: an element of the row, the first of the largest. *)
Definition row_max (r : list Q) : result Q :=
  match r with
  | [] => Raise ValueError_zero_size_reduction
  | x :: xs => Ok (fold_left (fun m y => if Qltb m y then y else m) xs x)
  end.

(** [np.argmax] of one row: the lowest index of the largest element. *)
Fixpoint argmax_from (xs : list Q) (i : nat) (best : Q) (besti : nat) : nat :=
  match xs with
  | [] => besti
  | y :: ys =>
      if Qltb best y then argmax_from ys (S i) y i
      else argmax_from ys (S i) best besti
  end.

Definition row_argmax (r : list Q) : result nat :=
  match r with
  | [] => Raise ValueError_zero_size_reduction
  | x :: xs => Ok (argmax_from xs 1 x 0)
  end.

(** A function that may raise, applied to every row in turn. *)
Fixpoint map_result {A B : Type} (f : A -> result B) (l : list A)
  : result (list B) :=
  match l with
  | [] => Ok []
  | a :: l' =>
      b <- f a ;;
      bs <- map_result f l' ;;
      Ok (b :: bs)
  end.

(** [np.max(a, axis=1)] and [np.argmax(a, axis=1)] of a 2-D array: both
    raise when the reduced axis has length 0, whatever the number of rows. *)
Definition max_axis1 (a : ndarray) : result (list Q) :=
  if Nat.eqb (ncols_of a) 0 then Raise ValueError_zero_size_reduction
  else map_result row_max (rows_of a).

Definition argmax_axis1 (a : ndarray) : result (list nat) :=
  if Nat.eqb (ncols_of a) 0 then Raise ValueError_zero_size_reduction
  else map_result row_argmax (rows_of a).

(** [a[mask]] for a boolean mask computed row by row. *)
Fixpoint mask_select {A : Type} (mask : list bool) (a : list A) : list A :=
  match mask, a with
  | m :: mask', x :: a' =>
      if m then x :: mask_select mask' a' else mask_select mask' a'
  | _, _ => []
  end.

(** numpy indexing [a[indices]] with the value [cv2.dnn.NMSBoxes] returns:
    a non-empty result is an integer array and selects the listed rows; an
    empty result comes back from the OpenCV binding as the empty tuple [()],
    and [a[()]] is the whole array [a]. *)
Definition getitem {A : Type} (d : A) (a : list A) (indices : list nat)
  : list A :=
  match indices with
  | [] => a
  | _ => map (fun i => nth i a d) indices
  end.

(** ** The detector *)

(** The decoded image handed to [detect]: [img.shape[:2]] and the pixels. *)
Record Image : Type := mkImage {
  shape_h : nat;
  shape_w : nat;
  pixels : list Z
}.

(** The fields of a constructed [YOLOv9] object that [detect] reads or
    writes.  [image_width], [image_height] come from [original_size] in
    [__init__]; [input_width], [input_height] from the model; [img],
    [img_height], [img_width] are [None] until a call assigns them. *)
Record YOLOv9 : Type := mkYOLOv9 {
  conf_threshold : Q;
  iou_threshold : Q;
  score_threshold : Q;
  img_height : option nat;
  img_width : option nat;
  input_height : Z;
  input_width : Z;
  image_width : Z;
  image_height : Z;
  classes : list string;
  img : option Image
}.

Definition set_img (self : YOLOv9) (i : Image) : YOLOv9 :=
  mkYOLOv9 (conf_threshold self) (iou_threshold self) (score_threshold self)
           (img_height self) (img_width self)
           (input_height self) (input_width self)
           (image_width self) (image_height self)
           (classes self) (Some i).

Definition set_img_shape (self : YOLOv9) (h w : option nat) : YOLOv9 :=
  mkYOLOv9 (conf_threshold self) (iou_threshold self) (score_threshold self)
           h w
           (input_height self) (input_width self)
           (image_width self) (image_height self)
           (classes self) (img self).

(** One entry of the list [postprocess] returns. *)
Record Detection : Type := mkDetection {
  class_index : nat;
  confidence : Q;
  box : Q * Q * Q * Q;
  class_name : string
}.

(** An int32 box row [(b0, b1, b2, b3)]. *)
Definition ibox : Type := (Z * Z * Z * Z)%type.

(** ** [cv2.dnn.NMSBoxes]

    Modelled from the spec: the suppression is [cv2.dnn.NMSBoxes], an OpenCV
    function whose body is not among the sources; line 89 calls it with the
    default [eta = 1] and [top_k = 0].  The definitions follow the
    suppressor component of the specification, which is OpenCV's
    [GetMaxScoreIndex] followed by the loop of [NMSFast_]: the candidates
    above the score threshold are sorted by descending score, stably (the
    lower index first among equal scores); they are taken in that order,
    and one is kept unless its overlap with an already kept one exceeds the
    threshold.  The overlap of two rows is the one OpenCV computes for the
    rectangles (x, y, width, height) it reads them as; the loop is stated
    for any overlap function, and the properties proved of the suppression
    hold for every one.  OpenCV first asserts that neither threshold is
    negative; the definitions give what it returns when the assertion
    holds. *)

Definition area (r : ibox) : Z :=
  let '(_, _, w, h) := r in w * h.

(** Area of [a & b], the intersection rectangle (empty when a side is not
    positive). *)
Definition inter_area (a b : ibox) : Z :=
  let '(ax, ay, aw, ah) := a in
  let '(bx, by', bw, bh) := b in
  let iw := Z.min (ax + aw) (bx + bw) - Z.max ax bx in
  let ih := Z.min (ay + ah) (by' + bh) - Z.max ay by' in
  if (iw <=? 0) || (ih <=? 0) then 0 else iw * ih.

(** [rectOverlap a b = 1 - jaccardDistance(a, b)]; the distance is 0 when
    the two areas sum to nothing. *)
Definition rectOverlap (a b : ibox) : Q :=
  if area a + area b <=? 0 then 1%Q
  else (inject_Z (inter_area a b)
        / inject_Z (area a + area b - inter_area a b))%Q.

(** The pairs (score, index) of the scores above the threshold, in index
    order. *)
Fixpoint score_index_from (i : nat) (scores : list Q) (threshold : Q)
  : list (Q * nat) :=
  match scores with
  | [] => []
  | s :: rest =>
      if Qltb threshold s
      then (s, i) :: score_index_from (S i) rest threshold
      else score_index_from (S i) rest threshold
  end.

(** The comparator of the sort: [pair1.first > pair2.first]. *)
Definition SortScorePairDescend (pair1 pair2 : Q * nat) : bool :=
  Qltb (fst pair2) (fst pair1).

(** [std::stable_sort]: an element goes after the elements that come before
    it under the comparator and before every other one. *)
Fixpoint insert_stable (p : Q * nat) (l : list (Q * nat)) : list (Q * nat) :=
  match l with
  | [] => [p]
  | q :: l' =>
      if SortScorePairDescend q p then q :: insert_stable p l' else p :: l
  end.

Definition stable_sort (l : list (Q * nat)) : list (Q * nat) :=
  fold_right insert_stable [] l.

Definition GetMaxScoreIndex (scores : list Q) (threshold : Q)
  : list (Q * nat) :=
  stable_sort (score_index_from 0 scores threshold).

Section NMSFast.
Variable BoxType : Type.
Variable default_box : BoxType.
Variable computeOverlap : BoxType -> BoxType -> Q.
Variable bboxes : list BoxType.
Variable nms_threshold : Q.

(** [keep] of one candidate against the indices kept so far. *)
Definition keep_against (indices : list nat) (idx : nat) : bool :=
  forallb (fun kept_idx =>
             Qle_bool (computeOverlap (nth idx bboxes default_box)
                                      (nth kept_idx bboxes default_box))
                      nms_threshold)
          indices.

(** The loop over [score_index_vec], [indices] growing at its end. *)
Fixpoint NMSFast_loop (score_index_vec : list (Q * nat))
         (indices : list nat) : list nat :=
  match score_index_vec with
  | [] => indices
  | (_, idx) :: rest =>
      if keep_against indices idx
      then NMSFast_loop rest (indices ++ [idx])
      else NMSFast_loop rest indices
  end.
End NMSFast.

Definition NMSBoxes (bboxes : list ibox) (scores : list Q)
           (score_threshold nms_threshold : Q) : list nat :=
  NMSFast_loop ibox (0, 0, 0, 0) rectOverlap bboxes nms_threshold
               (GetMaxScoreIndex scores score_threshold) [].

(** ** [xywh2xyxy] *)

(** Modelled from the spec: [xywh2xyxy] is imported from [yolo.utils], which
    is not among the sources.  The conversion of one box from centre and
    size to corners: x1 = cx - w/2, y1 = cy - h/2, x2 = cx + w/2,
    y2 = cy + h/2. *)
Definition xywh2xyxy_box (b : ibox) : Q * Q * Q * Q :=
  let '(cx, cy, w, h) := b in
  (inject_Z cx - inject_Z w / 2, inject_Z cy - inject_Z h / 2,
   inject_Z cx + inject_Z w / 2, inject_Z cy + inject_Z h / 2)%Q.

Definition xywh2xyxy (boxes : list ibox) : list (Q * Q * Q * Q) :=
  map xywh2xyxy_box boxes.

(** ** [YOLOv9.postprocess] *)

(** Lines 76-80: transpose, row maxima, confidence mask, arg-maxima.
    Returns [predictions], [scores] and [class_ids]. *)
Definition decode (self : YOLOv9) (outputs : tensor)
  : result (list (list Q) * list Q * list nat) :=
  let predictions := T (squeeze outputs) in
  cls <- cols_from 4 predictions ;;
  scores <- max_axis1 cls ;;
  let mask := map (fun s => Qltb (conf_threshold self) s) scores in
  let predictions' := mask_select mask (rows_of predictions) in
  let scores' := mask_select mask scores in
  class_ids <- argmax_axis1
                 (Arr2 (ncols_of predictions - 4) (map (skipn 4) predictions')) ;;
  Ok (predictions', scores', class_ids).

(** Lines 86-88 on one field: divided by the input size, multiplied by the
    original size, cast to int32. *)
Definition scale_coordinate (b : Q) (input original : Z) : Z :=
  astype_int32 (imul_float32 (divide_float32 b input) original).

(** Lines 83-88: the first four fields of a row, scaled with
    [input_width], [input_height] and [image_width], [image_height]. *)
Definition rescale_box (self : YOLOv9) (p : list Q) : ibox :=
  let b := fun k => nth k p 0%Q in
  (scale_coordinate (b 0%nat) (input_width self) (image_width self),
   scale_coordinate (b 1%nat) (input_height self) (image_height self),
   scale_coordinate (b 2%nat) (input_width self) (image_width self),
   scale_coordinate (b 3%nat) (input_height self) (image_height self)).

Definition rescale (self : YOLOv9) (predictions : list (list Q)) : list ibox :=
  map (rescale_box self) predictions.

Definition get_label_name (self : YOLOv9) (class_id : nat) : result string :=
  match nth_error (classes self) class_id with
  | Some name => Ok name
  | None => Raise LookupError_classes
  end.

(** Lines 90-98: the loop over the zipped boxes, scores and labels. *)
Fixpoint assemble (self : YOLOv9)
         (zipped : list ((Q * Q * Q * Q) * Q * nat)) : result (list Detection) :=
  match zipped with
  | [] => Ok []
  | (bbox, score, label) :: rest =>
      name <- get_label_name self label ;;
      detections <- assemble self rest ;;
      Ok (mkDetection label score bbox name :: detections)
  end.

(** Line 89: the boxes given to the suppression and what it returns. *)
Definition nms_indices (self : YOLOv9) (predictions : list (list Q))
           (scores : list Q) : list nat :=
  NMSBoxes (rescale self predictions) scores
           (score_threshold self) (iou_threshold self).

(** Line 91: [zip(xywh2xyxy(boxes[indices]), scores[indices],
    class_ids[indices])]. *)
Definition zipped (boxes : list ibox) (scores : list Q) (class_ids : list nat)
           (indices : list nat) : list ((Q * Q * Q * Q) * Q * nat) :=
  combine (combine (xywh2xyxy (getitem (0, 0, 0, 0) boxes indices))
                   (getitem 0%Q scores indices))
          (getitem 0%nat class_ids indices).

Definition postprocess (self : YOLOv9) (outputs : tensor)
  : result (list Detection) :=
  d <- decode self outputs ;;
  let '(predictions, scores, class_ids) := d in
  let boxes := rescale self predictions in
  let indices := nms_indices self predictions scores in
  assemble self (zipped boxes scores class_ids indices).

(** ** [YOLOv9.preprocess] and [YOLOv9.detect] *)

Section Runtime.
(** The input tensor, the OpenCV and numpy calls of lines 67-71 that build
    it from the image and the input size, and [session.run]. *)
Variable InputTensor : Type.
Variable to_input_tensor : Image -> Z -> Z -> InputTensor.
Variable session_run : InputTensor -> tensor.

(** Line 66 assigns [img_height], [img_width] from [self.img.shape[:2]];
    the method reads the image from [self.img]. *)
Definition preprocess (self : YOLOv9) : result (YOLOv9 * InputTensor) :=
  match img self with
  | None => Raise AttributeError_no_image
  | Some i =>
      Ok (set_img_shape self (Some (shape_h i)) (Some (shape_w i)),
          to_input_tensor i (input_width self) (input_height self))
  end.

(** Line 104 assigns [self.img]; the detector after the call and what the
    call returns. *)
Definition detect (self : YOLOv9) (i : Image)
  : YOLOv9 * result (list Detection) :=
  let self1 := set_img self i in
  match preprocess self1 with
  | Raise e => (self1, Raise e)
  | Ok (self2, input_tensor) =>
      let outputs := session_run input_tensor in
      (self2, postprocess self2 outputs)
  end.
End Runtime.

(** ** [YOLOv9.draw_detections] *)

(** The calls [draw_detections] makes on the image, in order: the image is
    changed by these calls only.  [cv2.rectangle] with its two corners, its
    colour and its thickness ([cv2.FILLED] is -1); [cv2.putText] with the
    text and its origin (the font, scale, colour and line type are the
    constants of line 152). *)
Inductive draw_call : Type :=
| cv2_rectangle (pt1 pt2 : Z * Z) (color : Q * Q * Q) (thickness : Z)
| cv2_putText (text : string) (org : Z * Z).

(** What stops the loop: [self.color_palette[class_id]] (line 131) or
    [self.classes[class_id]] (line 137) without entry. *)
Inductive draw_exn : Type :=
| IndexError_color_palette
| LookupError_class_name.

(** [detection['box'].astype(int)]. *)
Definition box_astype_int (b : Q * Q * Q * Q) : ibox :=
  let '(x1, y1, x2, y2) := b in (Qtrunc x1, Qtrunc y1, Qtrunc x2, Qtrunc y2).

(** Line 144. *)
Definition label_y_of (y1 label_height : Z) : Z :=
  if label_height <? y1 - 10 then y1 - 10 else y1 + 10.

Section Drawing.
(** The palette of [create_session], one colour per class; the text of a
    confidence under the format [:.2f]; [cv2.getTextSize] of a label with
    the constants of line 140, as (width, height). *)
Variable color_palette : list (Q * Q * Q).
Variable format_confidence : Q -> string.
Variable getTextSize : string -> Z * Z.

(** The three calls of one detection (lines 134, 147-149, 152). *)
Definition draw_calls (x1 y1 x2 y2 : Z) (color : Q * Q * Q) (label : string)
  : list draw_call :=
  let '(label_width, label_height) := getTextSize label in
  let label_x := x1 in
  let label_y := label_y_of y1 label_height in
  [cv2_rectangle (x1, y1) (x2, y2) color 2;
   cv2_rectangle (label_x, label_y - label_height)
                 (label_x + label_width, label_y + label_height) color (-1);
   cv2_putText label (label_x, label_y)].

(** The loop of lines 124-152: the calls made and the exception that ended
    the loop, if any.  A palette lookup that fails stops the loop before
    any call for that detection; a class-name lookup that fails stops it
    after the box of that detection has been drawn. *)
Fixpoint draw_detections (self : YOLOv9) (detections : list Detection)
  : list draw_call * option draw_exn :=
  match detections with
  | [] => ([], None)
  | detection :: rest =>
      let '(x1, y1, x2, y2) := box_astype_int (box detection) in
      let class_id := class_index detection in
      match nth_error color_palette class_id with
      | None => ([], Some IndexError_color_palette)
      | Some color =>
          match nth_error (classes self) class_id with
          | None =>
              ([cv2_rectangle (x1, y1) (x2, y2) color 2],
               Some LookupError_class_name)
          | Some name =>
              let label :=
                (name ++ ": " ++ format_confidence (confidence detection))%string in
              let '(calls, e) := draw_detections self rest in
              (draw_calls x1 y1 x2 y2 color label ++ calls, e)
          end
      end
  end.
End Drawing.

(** ** Vocabulary of the statements *)

(** The anchor rows of a raw output: anchor [i] collects field [i] of every
    channel row. *)
Definition anchors (outputs : tensor) : list (list Q) :=
  map (fun i => map (fun r => nth i r 0%Q) outputs)
      (seq 0 (n_anchors outputs)).

(** The score and the class of an anchor row: maximum and arg-maximum of
    its fields from the fifth on. *)
Definition anchor_score (a : list Q) : Q :=
  match skipn 4 a with
  | [] => 0%Q
  | x :: xs => fold_left (fun m y => if Qltb m y then y else m) xs x
  end.

Definition anchor_class (a : list Q) : nat :=
  match skipn 4 a with
  | [] => 0%nat
  | x :: xs => argmax_from xs 1 x 0
  end.

(** [m] is a maximum of [l]. *)
Definition is_max (m : Q) (l : list Q) : Prop :=
  In m l /\ Forall (fun x => (x <= m)%Q) l.

(** The shapes (1, F, N) on which [np.squeeze] drops the batch axis only and
    at least one class field follows the four box fields. *)
Definition well_shaped (outputs : tensor) : Prop :=
  (5 <= length outputs)%nat /\ n_anchors outputs <> 1%nat.

(** The candidate kept by the confidence mask. *)
Definition above_conf (self : YOLOv9) (a : list Q) : bool :=
  Qltb (conf_threshold self) (anchor_score a).

(** The candidates of a raw output (the anchors above the confidence
    threshold, in anchor order), their scores, the indices line 89 obtains
    for them, and the class ids of the rows that are assembled. *)
Definition candidates (self : YOLOv9) (outputs : tensor) : list (list Q) :=
  filter (above_conf self) (anchors outputs).

Definition candidate_scores (self : YOLOv9) (outputs : tensor) : list Q :=
  map anchor_score (candidates self outputs).

Definition kept_indices (self : YOLOv9) (outputs : tensor) : list nat :=
  nms_indices self (candidates self outputs) (candidate_scores self outputs).

Definition surviving_class_ids (self : YOLOv9) (outputs : tensor) : list nat :=
  getitem 0%nat (map anchor_class (candidates self outputs))
          (kept_indices self outputs).

(** The candidate rows assembled into detections: those selected on
    line 91 with the indices the suppression returned. *)
Definition assembled_candidates (self : YOLOv9) (outputs : tensor)
  : list (list Q) :=
  getitem [] (candidates self outputs) (kept_indices self outputs).


(** A field scaled without rounding: divided by the input size and
    multiplied by the original size. *)
Definition scaled_exactly (b : Q) (input original : Z) : Q :=
  (b / inject_Z input * inject_Z original)%Q.

(** The order of the indices [NMSBoxes] returns: higher score first, and
    among equal scores the lower index first. *)
Definition score_at (scores : list Q) (i : nat) : Q := nth i scores 0%Q.

Definition precedes (scores : list Q) (i j : nat) : Prop :=
  (score_at scores j < score_at scores i)%Q \/
  (score_at scores j == score_at scores i /\ (i < j)%nat)%Q.

(** The order on pairs (score, index) behind it. *)
Definition pair_precedes (p q : Q * nat) : Prop :=
  (fst q < fst p)%Q \/ (fst q == fst p /\ (snd p < snd q)%nat)%Q.

(** Every pair of kept indices passed the overlap test of the greedy loop,
    the later one against the earlier one. *)
Definition compatible (BoxType : Type) (default_box : BoxType)
           (computeOverlap : BoxType -> BoxType -> Q) (bboxes : list BoxType)
           (nms_threshold : Q) (indices : list nat) : Prop :=
  forall j k, (k < j < length indices)%nat ->
    Qle_bool (computeOverlap (nth (nth j indices 0%nat) bboxes default_box)
                             (nth (nth k indices 0%nat) bboxes default_box))
             nms_threshold = true.

(** The order the specification states for the returned list: descending
    confidence, then ascending class index. *)
Definition claimed_order (d1 d2 : Detection) : Prop :=
  (confidence d2 < confidence d1)%Q \/
  (confidence d2 == confidence d1 /\ (class_index d1 <= class_index d2)%nat)%Q.

(** The fields of the detector that a call of [detect] does not assign. *)
Definition same_config (a b : YOLOv9) : Prop :=
  conf_threshold a = conf_threshold b /\
  iou_threshold a = iou_threshold b /\
  score_threshold a = score_threshold b /\
  input_height a = input_height b /\
  input_width a = input_width b /\
  image_width a = image_width b /\
  image_height a = image_height b /\
  classes a = classes b.

Definition ibox_to_Q (b : ibox) : Q * Q * Q * Q :=
  let '(b0, b1, b2, b3) := b in
  (inject_Z b0, inject_Z b1, inject_Z b2, inject_Z b3).

(** Two boxes with equal coordinates, as rationals. *)
Definition qbox_eq (a b : Q * Q * Q * Q) : Prop :=
  let '(a0, a1, a2, a3) := a in
  let '(b0, b1, b2, b3) := b in
  (a0 == b0 /\ a1 == b1 /\ a2 == b2 /\ a3 == b3)%Q.

(** ** Concrete detectors and raw outputs *)

Local Open Scope Q_scope.

(** Input size 64 x 64, [original_size = (128, 64)], two class names. *)
Definition example_detector : YOLOv9 :=
  mkYOLOv9 (1 # 4) (1 # 2) (1 # 8) None None 64 64 128 64
           ["person"; "car"]%string None.

(** The same detector with a score threshold above its confidence
    threshold. *)
Definition strict_detector : YOLOv9 :=
  mkYOLOv9 (1 # 4) (1 # 2) (3 # 4) None None 64 64 128 64
           ["person"; "car"]%string None.

(** Two anchors, two classes: disjoint boxes, the same score 3/4, the first
    anchor of class 1 and the second of class 0. *)
Definition tied_outputs : tensor :=
  [[16; 48]; [16; 48]; [8; 8]; [8; 8]; [0; 3 # 4]; [3 # 4; 0]].

(** Two anchors of score 1/2, between the two thresholds of
    [strict_detector]. *)
Definition middling_outputs : tensor :=
  [[16; 48]; [16; 48]; [8; 8]; [8; 8]; [1 # 2; 0]; [0; 1 # 2]].

(** Two anchors with a single class field (five fields per anchor). *)
Definition one_class_outputs : tensor :=
  [[16; 48]; [16; 48]; [8; 8]; [8; 8]; [3 # 4; 1 # 2]].

(** Two anchors with three class fields, the third the largest. *)
Definition three_class_outputs : tensor :=
  [[16; 48]; [16; 48]; [8; 8]; [8; 8]; [0; 0]; [0; 0]; [3 # 4; 1 # 2]].

(** Two anchors, none above the confidence threshold 1/4. *)
Definition quiet_outputs : tensor :=
  [[16; 48]; [16; 48]; [8; 8]; [8; 8]; [1 # 8; 0]; [0; 1 # 8]].


Definition quiet_single_anchor_outputs : tensor :=
  [[16]; [16]; [8]; [8]; [1 # 8]; [0]].

(** Two anchors, the first above the confidence threshold 1/4 and the
    second below it. *)
Definition mixed_outputs : tensor :=
  [[16; 48]; [16; 48]; [8; 8]; [8; 8]; [3 # 4; 1 # 8]; [0; 0]].

(** Two anchors with the same box, of classes 0 and 1. *)
Definition twin_outputs : tensor :=
  [[16; 16]; [16; 16]; [8; 8]; [8; 8]; [3 # 4; 0]; [0; 7 # 8]].

(** A palette of two colours, and stand-ins for the text of a confidence
    and for the size of a label. *)
Definition example_palette : list (Q * Q * Q) :=
  [(255, 0, 0); (0, 255, 0)].

Definition constant_format (_ : Q) : string := "0.75"%string.

Definition constant_text_size (_ : string) : Z * Z := (60, 12)%Z.

(** An image of one row and two pixels, and a runtime that answers every
    input with [outputs]. *)
Definition example_image : Image := mkImage 1 2 [0; 0; 0; 255; 255; 255]%Z.

Definition constant_runtime (outputs : tensor) (_ : Image) : tensor := outputs.

Definition image_as_tensor (i : Image) (_ _ : Z) : Image := i.

Local Close Scope Q_scope.

(** * Properties *)

(** ** Comparisons *)

Lemma Qltb_lt (x y : Q) : Qltb x y = true <-> (x < y)%Q.
Proof.
  unfold Qltb. rewrite negb_true_iff.
  split; intro H.
  - apply Qnot_le_lt. intro Hle. apply Qle_bool_iff in Hle. congruence.
  - destruct (Qle_bool y x) eqn:E; [|reflexivity].
    apply Qle_bool_iff in E. exfalso. apply (Qlt_not_le _ _ H E).
Qed.

Lemma Qltb_ge (x y : Q) : Qltb x y = false <-> (y <= x)%Q.
Proof.
  unfold Qltb. rewrite negb_false_iff. apply Qle_bool_iff.
Qed.

(** ** Row maxima *)

Lemma fold_max_is_max (xs : list Q) (x : Q) :
  is_max (fold_left (fun m y => if Qltb m y then y else m) xs x) (x :: xs).
Proof.
  revert x. induction xs as [|y ys IH]; intros x; simpl.
  - split; [now left|]. constructor; [apply Qle_refl|constructor].
  - destruct (Qltb x y) eqn:E.
    + destruct (IH y) as [Hin Hall]. split.
      * destruct Hin as [<-|Hin]; [right; now left|right; now right].
      * inversion Hall as [|? ? Hy Hys]; subst.
        constructor; [|constructor; assumption].
        apply Qltb_lt in E. apply Qlt_le_weak.
        eapply Qlt_le_trans; eassumption.
    + destruct (IH x) as [Hin Hall]. split.
      * destruct Hin as [<-|Hin]; [now left|right; now right].
      * inversion Hall as [|? ? Hx Hys]; subst.
        constructor; [assumption|constructor; [|assumption]].
        apply Qltb_ge in E. eapply Qle_trans; eassumption.
Qed.

Lemma anchor_score_is_max (a : list Q) :
  (5 <= length a)%nat -> is_max (anchor_score a) (skipn 4 a).
Proof.
  intro Hlen. unfold anchor_score.
  destruct (skipn 4 a) as [|x xs] eqn:E.
  - exfalso. assert (Hl : length (skipn 4 a) = 0%nat) by now rewrite E.
    rewrite length_skipn in Hl. lia.
  - apply fold_max_is_max.
Qed.

Lemma argmax_from_bound (xs : list Q) (i : nat) (best : Q) (besti : nat) :
  (besti < i)%nat -> (argmax_from xs i best besti < i + length xs)%nat.
Proof.
  revert i best besti. induction xs as [|y ys IH]; intros i best besti Hlt; simpl.
  - lia.
  - destruct (Qltb best y).
    + specialize (IH (S i) y i). lia.
    + specialize (IH (S i) best besti). lia.
Qed.

Lemma anchor_class_bound (a : list Q) :
  (5 <= length a)%nat -> (anchor_class a < length a - 4)%nat.
Proof.
  intro Hlen. unfold anchor_class.
  assert (Hl : length (skipn 4 a) = (length a - 4)%nat) by apply length_skipn.
  destruct (skipn 4 a) as [|x xs].
  - simpl in Hl. lia.
  - simpl in Hl. pose proof (argmax_from_bound xs 1 x 0). lia.
Qed.

(** ** The decode step *)

Lemma T_squeeze (outputs : tensor) :
  well_shaped outputs ->
  T (squeeze outputs) = Arr2 (length outputs) (anchors outputs).
Proof.
  intros [HF HN]. unfold squeeze.
  destruct outputs as [|r [|r' rest]]; simpl in HF; try lia.
  destruct (Nat.eqb (n_anchors (r :: r' :: rest)) 1) eqn:E.
  - apply Nat.eqb_eq in E. contradiction.
  - reflexivity.
Qed.

Lemma anchors_length (outputs : tensor) (a : list Q) :
  In a (anchors outputs) -> length a = length outputs.
Proof.
  unfold anchors. intro H. apply in_map_iff in H.
  destruct H as [i [<- _]]. apply length_map.
Qed.

Lemma map_result_row_max (rows : list (list Q)) :
  Forall (fun a => (5 <= length a)%nat) rows ->
  map_result row_max (map (skipn 4) rows) = Ok (map anchor_score rows).
Proof.
  induction 1 as [|a rows Ha _ IH]; cbn [map map_result]; [reflexivity|].
  rewrite IH. unfold anchor_score, row_max.
  destruct (skipn 4 a) as [|x xs] eqn:E; [|reflexivity].
  exfalso. assert (Hl : length (skipn 4 a) = 0%nat) by now rewrite E.
  rewrite length_skipn in Hl. lia.
Qed.

Lemma map_result_row_argmax (rows : list (list Q)) :
  Forall (fun a => (5 <= length a)%nat) rows ->
  map_result row_argmax (map (skipn 4) rows) = Ok (map anchor_class rows).
Proof.
  induction 1 as [|a rows Ha _ IH]; cbn [map map_result]; [reflexivity|].
  rewrite IH. unfold anchor_class, row_argmax.
  destruct (skipn 4 a) as [|x xs] eqn:E; [|reflexivity].
  exfalso. assert (Hl : length (skipn 4 a) = 0%nat) by now rewrite E.
  rewrite length_skipn in Hl. lia.
Qed.

Lemma mask_select_map {A B : Type} (f : A -> bool) (g : A -> B) (l : list A) :
  mask_select (map f l) (map g l) = map g (filter f l).
Proof.
  induction l as [|x l IH]; simpl; [reflexivity|].
  destruct (f x); simpl; now rewrite IH.
Qed.

Lemma mask_select_filter {A : Type} (f : A -> bool) (l : list A) :
  mask_select (map f l) l = filter f l.
Proof.
  rewrite <- (map_id l) at 2. rewrite mask_select_map. apply map_id.
Qed.

(** On a well-shaped tensor the decode step returns, in anchor order, the
    anchors above the confidence threshold with their scores and classes. *)
Lemma decode_eq (self : YOLOv9) (outputs : tensor) :
  well_shaped outputs ->
  decode self outputs =
  Ok (filter (above_conf self) (anchors outputs),
      map anchor_score (filter (above_conf self) (anchors outputs)),
      map anchor_class (filter (above_conf self) (anchors outputs))).
Proof.
  intros Hw. pose proof Hw as [HF HN].
  assert (Hrows : Forall (fun a => (5 <= length a)%nat) (anchors outputs)).
  { apply Forall_forall. intros a Ha. rewrite (anchors_length _ _ Ha). exact HF. }
  unfold decode. rewrite (T_squeeze _ Hw). cbn [cols_from bind].
  unfold max_axis1, argmax_axis1. cbn [ncols_of rows_of].
  destruct (Nat.eqb (length outputs - 4) 0) eqn:E.
  { apply Nat.eqb_eq in E. lia. }
  rewrite (map_result_row_max _ Hrows). cbn [bind].
  rewrite map_map.
  change (fun x => Qltb (conf_threshold self) (anchor_score x))
    with (above_conf self).
  rewrite mask_select_filter, mask_select_map.
  rewrite map_result_row_argmax; [reflexivity|].
  apply Forall_forall. intros a Ha. apply filter_In in Ha.
  destruct Ha as [Ha _]. rewrite Forall_forall in Hrows. now apply Hrows.
Qed.

(** ** The assembly loop *)

Lemma combine_map {A B C : Type} (f : A -> B) (g : A -> C) (l : list A) :
  combine (map f l) (map g l) = map (fun x => (f x, g x)) l.
Proof.
  induction l as [|x l IH]; simpl; [reflexivity|now rewrite IH].
Qed.

Lemma zipped_fields {A : Type} (rb : A -> ibox) (sc : A -> Q) (cl : A -> nat)
      (cands : list A) (indices : list nat) :
  let z := zipped (map rb cands) (map sc cands) (map cl cands) indices in
  map snd z = getitem 0%nat (map cl cands) indices /\
  map (fun r => snd (fst r)) z = getitem 0%Q (map sc cands) indices /\
  map (fun r => fst (fst r)) z
  = xywh2xyxy (getitem (0, 0, 0, 0) (map rb cands) indices).
Proof.
  unfold zipped. destruct indices as [|i indices].
  - cbn [getitem]. unfold xywh2xyxy. rewrite map_map, combine_map.
    rewrite (combine_map (fun a => (xywh2xyxy_box (rb a), sc a)) cl).
    rewrite !map_map. cbn [fst snd]. repeat split; reflexivity.
  - cbn [getitem]. set (l := i :: indices). unfold xywh2xyxy.
    rewrite map_map, combine_map.
    rewrite (combine_map
               (fun k => (xywh2xyxy_box (nth k (map rb cands) (0, 0, 0, 0)),
                          nth k (map sc cands) 0%Q))
               (fun k => nth k (map cl cands) 0%nat)).
    rewrite !map_map. cbn [fst snd]. repeat split; reflexivity.
Qed.

(** The list the loop builds when every label has a name. *)
Lemma assemble_ok (self : YOLOv9) (z : list ((Q * Q * Q * Q) * Q * nat)) :
  Forall (fun l => (l < length (classes self))%nat) (map snd z) ->
  exists dets,
    assemble self z = Ok dets /\
    map class_index dets = map snd z /\
    map confidence dets = map (fun r => snd (fst r)) z /\
    map box dets = map (fun r => fst (fst r)) z.
Proof.
  induction z as [|[[b s] l] z IH]; intro H.
  - exists []. repeat split; reflexivity.
  - cbn [map snd] in H. inversion H as [|? ? Hl Hz]; subst.
    destruct (IH Hz) as [dets [E [E1 [E2 E3]]]].
    cbn [assemble]. unfold get_label_name.
    destruct (nth_error (classes self) l) as [name|] eqn:En.
    + exists (mkDetection l s b name :: dets). cbn [bind]. rewrite E.
      cbn [bind map class_index confidence box fst snd].
      rewrite E1, E2, E3. repeat split; reflexivity.
    + apply nth_error_None in En. lia.
Qed.

(** The loop raises as soon as one label has no name, and raises nothing
    else. *)
Lemma assemble_raise (self : YOLOv9) (z : list ((Q * Q * Q * Q) * Q * nat)) :
  Exists (fun l => (length (classes self) <= l)%nat) (map snd z) ->
  assemble self z = Raise LookupError_classes.
Proof.
  induction z as [|[[b s] l] z IH]; intro H.
  - inversion H.
  - cbn [assemble]. unfold get_label_name.
    destruct (nth_error (classes self) l) as [name|] eqn:En.
    + cbn [bind]. cbn [map snd] in H. inversion H as [? ? Hl|? ? Hz]; subst.
      * assert (Hn : nth_error (classes self) l <> None) by congruence.
        apply nth_error_Some in Hn. lia.
      * now rewrite (IH Hz).
    + reflexivity.
Qed.

Lemma assemble_raises_lookup_only (self : YOLOv9)
      (z : list ((Q * Q * Q * Q) * Q * nat)) (e : exn) :
  assemble self z = Raise e -> e = LookupError_classes.
Proof.
  induction z as [|[[b s] l] z IH]; cbn [assemble]; [discriminate|].
  unfold get_label_name.
  destruct (nth_error (classes self) l); cbn [bind]; [|congruence].
  destruct (assemble self z) as [dets|e']; cbn [bind]; [discriminate|].
  intro H. injection H as <-. now apply IH.
Qed.

(** [postprocess] on a well-shaped tensor, in terms of its candidates. *)
Lemma postprocess_eq (self : YOLOv9) (outputs : tensor) :
  well_shaped outputs ->
  postprocess self outputs =
  assemble self
    (zipped (rescale self (candidates self outputs))
            (candidate_scores self outputs)
            (map anchor_class (candidates self outputs))
            (kept_indices self outputs)).
Proof.
  intro Hw. unfold postprocess. rewrite (decode_eq self outputs Hw).
  reflexivity.
Qed.

(** ** Dependence on the detector's fields *)

Lemma assemble_config (a b : YOLOv9) (z : list ((Q * Q * Q * Q) * Q * nat)) :
  classes a = classes b -> assemble a z = assemble b z.
Proof.
  intro H. induction z as [|[[bx s] l] z IH]; cbn [assemble]; [reflexivity|].
  unfold get_label_name. now rewrite H, IH.
Qed.

Lemma postprocess_config (a b : YOLOv9) (outputs : tensor) :
  same_config a b -> postprocess a outputs = postprocess b outputs.
Proof.
  intros (Hc & Hi & Hs & Hih & Hiw & HW & HH & Hcl).
  unfold postprocess, decode, nms_indices, rescale, rescale_box.
  rewrite Hc, Hi, Hs, Hih, Hiw, HW, HH.
  destruct (cols_from 4 (T (squeeze outputs))) as [cls|e]; [|reflexivity].
  cbn [bind]. destruct (max_axis1 cls) as [scores|e]; [|reflexivity].
  cbn [bind].
  destruct (argmax_axis1 _) as [ids|e]; [|reflexivity].
  cbn [bind]. apply assemble_config. exact Hcl.
Qed.

Lemma same_config_set (self : YOLOv9) (i : Image) (h w : option nat) :
  same_config (set_img_shape (set_img self i) h w) self.
Proof.
  repeat split.
Qed.

Section RuntimeFacts.
Variable InputTensor : Type.
Variable to_input_tensor : Image -> Z -> Z -> InputTensor.
Variable session_run : InputTensor -> tensor.

(** The detector after a call and the value of the call. *)
Lemma detect_eq (self : YOLOv9) (i : Image) :
  detect InputTensor to_input_tensor session_run self i =
  (set_img_shape (set_img self i) (Some (shape_h i)) (Some (shape_w i)),
   postprocess self
     (session_run (to_input_tensor i (input_width self) (input_height self)))).
Proof.
  unfold detect, preprocess. cbn [img set_img input_width input_height].
  f_equal. apply postprocess_config, same_config_set.
Qed.
End RuntimeFacts.



(** On [mixed_outputs] the first anchor survives and the second does not. *)
Lemma decode_mixed_outputs :
  decode example_detector mixed_outputs
  = Ok ([[16; 16; 8; 8; 3 # 4; 0]], [3 # 4], [0%nat])%Q.
Proof.
  vm_compute. reflexivity.
Qed.


(** ** Empty and failing results *)

Lemma filter_none {A : Type} (f : A -> bool) (l : list A) :
  Forall (fun x => f x = false) l -> filter f l = [].
Proof.
  induction 1 as [|x l Hx _ IH]; simpl; [reflexivity|now rewrite Hx].
Qed.

(** C7, as the code has it. Whatever the image and the runtime, when the
    raw output is well-shaped (at least five channel rows, an anchor count
    other than 1), the score and IoU thresholds are not negative (OpenCV
    asserts it) and no anchor exceeds the confidence threshold, [detect]
    returns the empty list and raises nothing. *)
Theorem detect_no_candidate_empty
        (InputTensor : Type) (to_input_tensor : Image -> Z -> Z -> InputTensor)
        (session_run : InputTensor -> tensor) (self : YOLOv9) (i : Image) :
  let outputs :=
    session_run (to_input_tensor i (input_width self) (input_height self)) in
  well_shaped outputs ->
  (0 <= score_threshold self)%Q ->
  (0 <= iou_threshold self)%Q ->
  Forall (fun a => (anchor_score a <= conf_threshold self)%Q) (anchors outputs) ->
  snd (detect InputTensor to_input_tensor session_run self i) = Ok [].
Proof.
  intros outputs Hw _ _ Hlow. rewrite detect_eq. cbn [snd]. fold outputs.
  rewrite (postprocess_eq self outputs Hw).
  unfold kept_indices, candidate_scores, candidates.
  rewrite filter_none; [reflexivity|].
  eapply Forall_impl; [|exact Hlow].
  intros a Ha. unfold above_conf. now apply Qltb_ge.
Qed.

Lemma detect_no_candidate_empty_witness :
  snd (detect Image image_as_tensor (constant_runtime quiet_outputs)
              example_detector example_image) = Ok [].
Proof.
  apply (detect_no_candidate_empty Image image_as_tensor
           (constant_runtime quiet_outputs) example_detector example_image).
  - split; simpl; lia.
  - vm_compute. discriminate.
  - vm_compute. discriminate.
  - repeat constructor; vm_compute; discriminate.
Defined.

(** C7, as stated, fails: the single anchor of
    [quiet_single_anchor_outputs] scores 1/8, not above the confidence
    threshold 1/4, so no anchor exceeds it; [detect] raises the index error
    of [predictions[:, 4:]] instead of returning the empty list. *)
Lemma detect_single_quiet_anchor_raises :
  Forall (fun a => (anchor_score a <= conf_threshold example_detector)%Q)
         (anchors quiet_single_anchor_outputs) /\
  snd (detect Image image_as_tensor
              (constant_runtime quiet_single_anchor_outputs)
              example_detector example_image)
  = Raise IndexError_too_many_indices /\
  ~ (forall self outputs i,
        Forall (fun a => (anchor_score a <= conf_threshold self)%Q)
               (anchors outputs) ->
        snd (detect Image image_as_tensor (constant_runtime outputs) self i)
        = Ok []).
Proof.
  assert (Hq : Forall
                 (fun a => (anchor_score a <= conf_threshold example_detector)%Q)
                 (anchors quiet_single_anchor_outputs)).
  { repeat constructor; vm_compute; discriminate. }
  split; [exact Hq|]. split; [reflexivity|].
  intro H.
  specialize (H example_detector quiet_single_anchor_outputs example_image Hq).
  vm_compute in H. discriminate H.
Qed.

(** C6. On a well-shaped raw output, when the class id of a row that is
    assembled has no entry in the class table, [postprocess] raises the
    lookup error of [self.classes[class_id]] (the failure the specification
    calls UnknownClassId) and returns no detection. *)
Theorem postprocess_unknown_class_raises (self : YOLOv9) (outputs : tensor) :
  well_shaped outputs ->
  Exists (fun c => (length (classes self) <= c)%nat)
         (surviving_class_ids self outputs) ->
  postprocess self outputs = Raise LookupError_classes.
Proof.
  intros Hw Hbad. rewrite (postprocess_eq self outputs Hw).
  apply assemble_raise.
  unfold rescale, candidate_scores.
  destruct (zipped_fields (rescale_box self) anchor_score anchor_class
              (candidates self outputs) (kept_indices self outputs))
    as [E _].
  cbv zeta in E. rewrite E. exact Hbad.
Qed.

Lemma postprocess_unknown_class_raises_witness :
  postprocess example_detector three_class_outputs = Raise LookupError_classes.
Proof.
  apply (postprocess_unknown_class_raises example_detector three_class_outputs).
  - split; simpl; lia.
  - vm_compute. constructor. lia.
Defined.

(** C5, as the code has it. The decode step does not compare the number of
    fields per anchor with the size of the class table: on every
    well-shaped raw output (at least five channel rows, an anchor count
    other than 1) and whatever the class table, it succeeds and returns
    its candidates, with class ids below the number of class fields of the
    tensor itself. *)
Theorem decode_no_shape_check (self : YOLOv9) (outputs : tensor) :
  well_shaped outputs ->
  exists preds scores ids,
    decode self outputs = Ok (preds, scores, ids) /\
    preds = filter (above_conf self) (anchors outputs) /\
    length scores = length preds /\
    length ids = length preds /\
    Forall (fun c => (c < length outputs - 4)%nat) ids.
Proof.
  intro Hw. pose proof Hw as [HF _].
  eexists _, _, _. split; [apply (decode_eq self outputs Hw)|].
  split; [reflexivity|]. rewrite !length_map. split; [reflexivity|].
  split; [reflexivity|].
  apply Forall_forall. intros c Hc. apply in_map_iff in Hc.
  destruct Hc as [a [<- Ha]]. apply filter_In in Ha. destruct Ha as [Ha _].
  rewrite <- (anchors_length _ _ Ha). apply anchor_class_bound.
  now rewrite (anchors_length _ _ Ha).
Qed.

Lemma decode_no_shape_check_witness :
  length one_class_outputs <> (4 + length (classes example_detector))%nat /\
  exists preds scores ids,
    decode example_detector one_class_outputs = Ok (preds, scores, ids) /\
    preds = filter (above_conf example_detector) (anchors one_class_outputs) /\
    length scores = length preds /\
    length ids = length preds /\
    Forall (fun c => (c < length one_class_outputs - 4)%nat) ids.
Proof.
  split; [simpl; lia|].
  apply (decode_no_shape_check example_detector one_class_outputs).
  split; simpl; lia.
Defined.

(** C5, as stated, fails: the class table has two names, the tensor has
    five fields per anchor (one class field, not two); the decode step
    returns its two candidates and [postprocess] two detections, where the
    claim has the decode step fail. *)
Lemma shape_mismatch_not_detected :
  length one_class_outputs <> (4 + length (classes example_detector))%nat /\
  (exists d1 d2, postprocess example_detector one_class_outputs = Ok [d1; d2]) /\
  ~ (forall self outputs,
        length outputs <> (4 + length (classes self))%nat ->
        exists e, decode self outputs = Raise e).
Proof.
  split; [simpl; lia|]. split.
  - eexists _, _. vm_compute. reflexivity.
  - intro H. destruct (H example_detector one_class_outputs) as [e He].
    + simpl; lia.
    + vm_compute in He. discriminate.
Qed.

(** ** The sorted candidates of [GetMaxScoreIndex] *)

Lemma score_index_from_spec (scores : list Q) (threshold : Q) (i : nat)
      (p : Q * nat) :
  In p (score_index_from i scores threshold) ->
  (i <= snd p < i + length scores)%nat /\
  nth (snd p - i) scores 0%Q = fst p /\
  (threshold < fst p)%Q.
Proof.
  revert i. induction scores as [|s rest IH]; intros i Hin; simpl in Hin.
  - contradiction.
  - assert (Hrest : In p (score_index_from (S i) rest threshold) ->
                    (i <= snd p < i + length (s :: rest))%nat /\
                    nth (snd p - i) (s :: rest) 0%Q = fst p /\
                    (threshold < fst p)%Q).
    { intro H. destruct (IH (S i) H) as [Hr [Hn Ht]]. simpl length.
      split; [lia|]. split; [|exact Ht].
      replace (snd p - i)%nat with (S (snd p - S i)) by lia. exact Hn. }
    destruct (Qltb threshold s) eqn:E; [|now apply Hrest].
    destruct Hin as [<-|Hin]; [|now apply Hrest].
    cbn [fst snd length]. rewrite Nat.sub_diag. cbn [nth].
    split; [lia|]. split; [reflexivity|]. now apply Qltb_lt.
Qed.

Lemma score_index_from_ascending (scores : list Q) (threshold : Q) (i : nat) :
  StronglySorted (fun p q : Q * nat => (snd p < snd q)%nat)
                 (score_index_from i scores threshold).
Proof.
  revert i. induction scores as [|s rest IH]; intro i; simpl.
  - constructor.
  - destruct (Qltb threshold s); [|apply IH].
    constructor; [apply IH|].
    apply Forall_forall. intros q Hq.
    apply score_index_from_spec in Hq. cbn [snd]. lia.
Qed.

(** When every score is above the threshold, every index is listed. *)
Lemma score_index_from_all (scores : list Q) (threshold : Q) (i : nat) :
  Forall (fun s => (threshold < s)%Q) scores ->
  score_index_from i scores threshold = combine scores (seq i (length scores)).
Proof.
  intro H. revert i. induction H as [|s rest Hs _ IH]; intro i; simpl.
  - reflexivity.
  - apply Qltb_lt in Hs. rewrite Hs. now rewrite IH.
Qed.

Lemma insert_stable_in (p x : Q * nat) (l : list (Q * nat)) :
  In x (insert_stable p l) <-> x = p \/ In x l.
Proof.
  induction l as [|q l IH]; simpl.
  - intuition congruence.
  - destruct (SortScorePairDescend q p); simpl.
    + rewrite IH. intuition congruence.
    + intuition congruence.
Qed.

Lemma stable_sort_in (x : Q * nat) (l : list (Q * nat)) :
  In x (stable_sort l) <-> In x l.
Proof.
  induction l as [|p l IH]; simpl; [tauto|].
  rewrite insert_stable_in, IH. intuition congruence.
Qed.

Lemma pair_precedes_le (p q : Q * nat) :
  pair_precedes p q -> (fst q <= fst p)%Q.
Proof.
  intros [H|[H _]]; [now apply Qlt_le_weak|].
  rewrite H. apply Qle_refl.
Qed.

Lemma insert_stable_sorted (p : Q * nat) (l : list (Q * nat)) :
  StronglySorted pair_precedes l ->
  Forall (fun q => (snd p < snd q)%nat) l ->
  StronglySorted pair_precedes (insert_stable p l).
Proof.
  induction 1 as [|q l Hl IH Hq]; intro Hidx; simpl.
  - repeat constructor.
  - inversion Hidx as [|? ? Hpq Hidx']; subst.
    unfold SortScorePairDescend. destruct (Qltb (fst p) (fst q)) eqn:E.
    + apply Qltb_lt in E. constructor; [now apply IH|].
      apply Forall_forall. intros x Hx. apply insert_stable_in in Hx.
      destruct Hx as [->|Hx]; [now left|].
      rewrite Forall_forall in Hq. now apply Hq.
    + apply Qltb_ge in E. constructor; [now constructor|].
      assert (Hle : forall r, In r (q :: l) -> (fst r <= fst p)%Q).
      { intros r [<-|Hr]; [exact E|].
        rewrite Forall_forall in Hq. apply Hq in Hr.
        apply pair_precedes_le in Hr. eapply Qle_trans; eassumption. }
      apply Forall_forall. intros r Hr.
      pose proof (Hle r Hr) as Hrp. apply Qle_lteq in Hrp.
      rewrite Forall_forall in Hidx. specialize (Hidx r Hr).
      destruct Hrp as [Hlt|Heq]; [now left|right; now split].
Qed.

Lemma stable_sort_sorted (l : list (Q * nat)) :
  StronglySorted (fun p q : Q * nat => (snd p < snd q)%nat) l ->
  StronglySorted pair_precedes (stable_sort l).
Proof.
  induction 1 as [|p l Hl IH Hp]; simpl.
  - constructor.
  - apply insert_stable_sorted; [exact IH|].
    apply Forall_forall. intros q Hq.
    apply (proj1 (stable_sort_in q l)) in Hq.
    rewrite Forall_forall in Hp. now apply Hp.
Qed.

(** A list already in non-increasing score order is left as it is. *)
Lemma stable_sort_fixed (l : list (Q * nat)) :
  StronglySorted (fun p q : Q * nat => (fst q <= fst p)%Q) l ->
  stable_sort l = l.
Proof.
  induction 1 as [|p l Hl IH Hp]; simpl; [reflexivity|].
  rewrite IH. destruct l as [|q l']; [reflexivity|]. simpl.
  inversion Hp as [|? ? Hq _]; subst.
  unfold SortScorePairDescend. apply Qltb_ge in Hq. now rewrite Hq.
Qed.

Lemma GetMaxScoreIndex_spec (scores : list Q) (threshold : Q) (p : Q * nat) :
  In p (GetMaxScoreIndex scores threshold) ->
  (snd p < length scores)%nat /\
  score_at scores (snd p) = fst p /\
  (threshold < fst p)%Q.
Proof.
  unfold GetMaxScoreIndex. rewrite stable_sort_in. intro H.
  apply score_index_from_spec in H. rewrite Nat.sub_0_r in H.
  unfold score_at. intuition lia.
Qed.

Lemma GetMaxScoreIndex_sorted (scores : list Q) (threshold : Q) :
  StronglySorted pair_precedes (GetMaxScoreIndex scores threshold).
Proof.
  apply stable_sort_sorted, score_index_from_ascending.
Qed.

(** ** The greedy loop *)

Lemma StronglySorted_remove {A : Type} (R : A -> A -> Prop) (l1 l2 : list A)
      (x : A) :
  StronglySorted R (l1 ++ x :: l2) -> StronglySorted R (l1 ++ l2).
Proof.
  induction l1 as [|y l1 IH]; simpl; intro H.
  - now inversion H.
  - inversion H as [|? ? Hs Hy]; subst. constructor; [now apply IH|].
    rewrite Forall_app in *. destruct Hy as [H1 H2].
    inversion H2; subst. now split.
Qed.

Lemma StronglySorted_map {A B : Type} (R : B -> B -> Prop) (f : A -> B)
      (l : list A) :
  StronglySorted (fun a b => R (f a) (f b)) l <-> StronglySorted R (map f l).
Proof.
  induction l as [|x l IH]; simpl.
  - split; constructor.
  - split; intro H; inversion H as [|? ? Hs Hx]; subst; constructor.
    + now apply IH.
    + now rewrite Forall_map.
    + now apply IH.
    + now rewrite Forall_map in Hx.
Qed.

Lemma StronglySorted_weaken {A : Type} (R R' : A -> A -> Prop) (l : list A) :
  (forall x y, In x l -> In y l -> R x y -> R' x y) ->
  StronglySorted R l -> StronglySorted R' l.
Proof.
  intros HR H. induction H as [|x l Hs IH Hx]; constructor.
  - apply IH. intros a b Ha Hb. apply HR; now right.
  - apply Forall_forall. intros y Hy. rewrite Forall_forall in Hx.
    apply HR; [now left|now right|now apply Hx].
Qed.

Section NMSFastFacts.
Variable BoxType : Type.
Variable default_box : BoxType.
Variable computeOverlap : BoxType -> BoxType -> Q.
Variable bboxes : list BoxType.
Variable nms_threshold : Q.

Let loop := NMSFast_loop BoxType default_box computeOverlap bboxes
                         nms_threshold.
Let keep := keep_against BoxType default_box computeOverlap bboxes
                         nms_threshold.

Let compatible := compatible BoxType default_box computeOverlap bboxes
                                 nms_threshold.

Lemma loop_sorted (R : nat -> nat -> Prop) (order : list (Q * nat))
      (indices : list nat) :
  StronglySorted R (indices ++ map snd order) ->
  StronglySorted R (loop order indices).
Proof.
  revert indices. induction order as [|[s idx] rest IH]; intros indices H.
  - simpl in *. now rewrite app_nil_r in H.
  - cbn [loop NMSFast_loop]. cbn [map snd] in H.
    destruct (keep_against _ _ _ _ _ indices idx).
    + apply IH. now rewrite <- app_assoc.
    + apply IH. eapply StronglySorted_remove. exact H.
Qed.

Lemma loop_in (order : list (Q * nat)) (indices : list nat) (i : nat) :
  In i (loop order indices) -> In i indices \/ In i (map snd order).
Proof.
  revert indices. induction order as [|[s idx] rest IH]; intros indices H.
  - now left.
  - cbn [loop NMSFast_loop] in H. cbn [map snd].
    destruct (keep_against _ _ _ _ _ indices idx).
    + apply IH in H. rewrite in_app_iff in H. simpl in *. tauto.
    + apply IH in H. simpl. tauto.
Qed.

(** The first candidate of the sorted list is always kept. *)
Lemma loop_keeps_indices (order : list (Q * nat)) (indices : list nat)
      (i : nat) :
  In i indices -> In i (loop order indices).
Proof.
  revert indices. induction order as [|[s idx] rest IH]; intros indices H.
  - exact H.
  - cbn [loop NMSFast_loop].
    destruct (keep_against _ _ _ _ _ indices idx); apply IH; [|exact H].
    apply in_app_iff. now left.
Qed.

Lemma loop_compatible (order : list (Q * nat)) (indices : list nat) :
  compatible indices -> compatible (loop order indices).
Proof.
  revert indices. induction order as [|[s idx] rest IH]; intros indices H.
  - exact H.
  - cbn [loop NMSFast_loop].
    destruct (keep_against _ _ _ _ _ indices idx) eqn:E; apply IH; [|exact H].
    intros j k Hjk. rewrite length_app in Hjk. simpl in Hjk.
    assert (Hk : (k < length indices)%nat) by lia.
    rewrite (app_nth1 indices [idx] 0%nat Hk).
    destruct (Nat.eq_dec j (length indices)) as [->|Hj].
    + rewrite app_nth2, Nat.sub_diag by lia. cbn [nth].
      unfold keep_against in E. rewrite forallb_forall in E.
      apply E. now apply nth_In.
    + rewrite app_nth1 by lia. apply H. lia.
Qed.
End NMSFastFacts.

(** ** What the suppression returns *)

Section SuppressionFacts.
Variable BoxType : Type.
Variable default_box : BoxType.
Variable computeOverlap : BoxType -> BoxType -> Q.
Variable nms_threshold : Q.

(** [NMSFast_] on given boxes and scores. *)
Let nms (bboxes : list BoxType) (scores : list Q) (score_threshold : Q) :=
  NMSFast_loop BoxType default_box computeOverlap bboxes nms_threshold
               (GetMaxScoreIndex scores score_threshold) [].

Lemma nms_above (bboxes : list BoxType) (scores : list Q)
      (score_threshold : Q) (i : nat) :
  In i (nms bboxes scores score_threshold) ->
  (i < length scores)%nat /\ (score_threshold < score_at scores i)%Q.
Proof.
  intro H. apply loop_in in H. destruct H as [[]|H].
  apply in_map_iff in H. destruct H as [p [<- Hp]].
  apply GetMaxScoreIndex_spec in Hp. destruct Hp as [Hl [-> Ht]].
  now split.
Qed.

Lemma nms_sorted (bboxes : list BoxType) (scores : list Q)
      (score_threshold : Q) :
  StronglySorted (precedes scores) (nms bboxes scores score_threshold).
Proof.
  apply loop_sorted. cbn [app].
  apply (proj1 (StronglySorted_map (precedes scores) snd _)).
  eapply StronglySorted_weaken; [|apply GetMaxScoreIndex_sorted].
  intros p q Hp Hq Hpq.
  apply GetMaxScoreIndex_spec in Hp, Hq.
  destruct Hp as [_ [Hp _]], Hq as [_ [Hq _]].
  unfold precedes. rewrite Hp, Hq. exact Hpq.
Qed.

Lemma nms_compatible (bboxes : list BoxType) (scores : list Q)
      (score_threshold : Q) :
  compatible BoxType default_box computeOverlap bboxes nms_threshold
             (nms bboxes scores score_threshold).
Proof.
  apply loop_compatible. intros j k Hjk. simpl in Hjk. lia.
Qed.

(** A candidate above the score threshold makes the result non-empty. *)
Lemma nms_nonempty (bboxes : list BoxType) (scores : list Q)
      (score_threshold : Q) :
  Exists (fun s => (score_threshold < s)%Q) scores ->
  nms bboxes scores score_threshold <> [].
Proof.
  intros Hex.
  assert (Hsome : exists p, In p (GetMaxScoreIndex scores score_threshold)).
  { unfold GetMaxScoreIndex.
    assert (Hgen : forall i, exists p,
               In p (score_index_from i scores score_threshold)).
    { induction Hex as [s rest Hs|s rest _ IH]; intro i; simpl.
      - apply Qltb_lt in Hs. rewrite Hs. eexists. now left.
      - destruct (Qltb score_threshold s).
        + eexists. now left.
        + apply IH. }
    destruct (Hgen 0%nat) as [p Hp]. exists p. now apply stable_sort_in. }
  destruct Hsome as [p Hp]. intro Hnil.
  unfold nms in Hnil.
  destruct (GetMaxScoreIndex scores score_threshold) as [|[s idx] rest].
  - contradiction.
  - cbn [NMSFast_loop keep_against forallb app] in Hnil.
    assert (Hin : In idx []).
    { rewrite <- Hnil. apply loop_keeps_indices. now left. }
    contradiction.
Qed.

(** No candidate above the score threshold: nothing is returned. *)
Lemma nms_empty (bboxes : list BoxType) (scores : list Q)
      (score_threshold : Q) :
  Forall (fun s => (s <= score_threshold)%Q) scores ->
  nms bboxes scores score_threshold = [].
Proof.
  intro H. destruct (nms bboxes scores score_threshold) as [|i l] eqn:E.
  - reflexivity.
  - exfalso. assert (Hi : In i (nms bboxes scores score_threshold)).
    { rewrite E. now left. }
    apply nms_above in Hi. destruct Hi as [Hl Hs].
    rewrite Forall_forall in H.
    apply (Qlt_not_le _ _ Hs). apply H. now apply nth_In.
Qed.

Lemma combine_seq_sorted (scores : list Q) (m : nat) :
  StronglySorted (fun x y => (y <= x)%Q) scores ->
  StronglySorted (fun p q : Q * nat => (fst q <= fst p)%Q)
                 (combine scores (seq m (length scores))).
Proof.
  intro H. revert m. induction H as [|s rest Hs IH Hall]; intro m; simpl.
  - constructor.
  - constructor; [apply IH|].
    apply Forall_forall. intros [s' k] Hin. apply in_combine_l in Hin.
    rewrite Forall_forall in Hall. cbn [fst]. now apply Hall.
Qed.

Lemma loop_keeps_all (bboxes : list BoxType) (order : list (Q * nat))
      (m : nat) :
  map snd order = seq m (length order) ->
  (forall j k, (k < j < m + length order)%nat ->
     Qle_bool (computeOverlap (nth j bboxes default_box)
                              (nth k bboxes default_box))
              nms_threshold = true) ->
  NMSFast_loop BoxType default_box computeOverlap bboxes nms_threshold
               order (seq 0 m)
  = seq 0 (m + length order).
Proof.
  revert m. induction order as [|[s idx] rest IH]; intros m Hidx Hok.
  - simpl. now rewrite Nat.add_0_r.
  - cbn [map snd length seq] in Hidx. injection Hidx as -> Hrest.
    cbn [NMSFast_loop].
    assert (Hkeep : keep_against BoxType default_box computeOverlap bboxes
                                 nms_threshold (seq 0 m) m = true).
    { unfold keep_against. apply forallb_forall. intros k Hk.
      apply in_seq in Hk. apply Hok. simpl. lia. }
    rewrite Hkeep.
    replace (seq 0 m ++ [m]) with (seq 0 (S m)) by now rewrite seq_S.
    rewrite (IH (S m)).
    + f_equal. simpl. lia.
    + exact Hrest.
    + intros j k Hjk. apply Hok. simpl. lia.
Qed.

(** Suppression of what a first suppression kept keeps everything. *)
Lemma nms_idempotent (bboxes : list BoxType) (scores : list Q)
      (score_threshold : Q) :
  let kept := nms bboxes scores score_threshold in
  nms (map (fun i => nth i bboxes default_box) kept)
      (map (score_at scores) kept) score_threshold
  = seq 0 (length kept).
Proof.
  intro kept.
  assert (Habove : Forall (fun s => (score_threshold < s)%Q)
                          (map (score_at scores) kept)).
  { apply Forall_forall. intros s Hs. apply in_map_iff in Hs.
    destruct Hs as [i [<- Hi]]. now apply nms_above in Hi. }
  assert (Hdesc : StronglySorted (fun x y => (y <= x)%Q)
                                 (map (score_at scores) kept)).
  { apply (proj1 (StronglySorted_map _ (score_at scores) kept)).
    eapply StronglySorted_weaken; [|apply nms_sorted].
    intros i j _ _ [Hlt|[Heq _]]; [now apply Qlt_le_weak|].
    rewrite Heq. apply Qle_refl. }
  unfold nms at 1. unfold GetMaxScoreIndex.
  rewrite (score_index_from_all _ _ 0 Habove).
  rewrite stable_sort_fixed by now apply combine_seq_sorted.
  set (order := combine (map (score_at scores) kept)
                        (seq 0 (length (map (score_at scores) kept)))).
  assert (Hlen : length order = length kept).
  { unfold order. rewrite length_combine, length_seq, !length_map. lia. }
  change (@nil nat) with (seq 0 0).
  rewrite loop_keeps_all; rewrite ?Hlen; [reflexivity| |].
  - unfold order. rewrite length_map.
    clear. generalize 0%nat. induction kept as [|i l IH]; intro m; simpl.
    + reflexivity.
    + f_equal. apply IH.
  - intros j k Hjk. simpl in Hjk.
    rewrite (nth_indep _ default_box (nth 0 bboxes default_box))
      by (rewrite length_map; lia).
    rewrite (nth_indep _ default_box (nth 0 bboxes default_box)
                       (n := k))
      by (rewrite length_map; lia).
    rewrite !(map_nth (fun i => nth i bboxes default_box)).
    apply (nms_compatible bboxes scores score_threshold). fold kept. lia.
Qed.
End SuppressionFacts.

Lemma assemble_fields (self : YOLOv9) (z : list ((Q * Q * Q * Q) * Q * nat))
      (dets : list Detection) :
  assemble self z = Ok dets ->
  map class_index dets = map snd z /\
  map confidence dets = map (fun r => snd (fst r)) z /\
  map box dets = map (fun r => fst (fst r)) z.
Proof.
  revert dets. induction z as [|[[b s] l] z IH]; intros dets H.
  - cbn [assemble] in H. injection H as <-. repeat split; reflexivity.
  - cbn [assemble] in H. unfold get_label_name in H.
    destruct (nth_error (classes self) l) as [name|]; [|discriminate].
    cbn [bind] in H. destruct (assemble self z) as [ds|e]; [|discriminate].
    cbn [bind] in H. injection H as <-.
    destruct (IH ds eq_refl) as [E1 [E2 E3]].
    cbn [map class_index confidence box fst snd].
    rewrite E1, E2, E3. repeat split; reflexivity.
Qed.

(** ** Suppression twice *)

(** Whatever the overlap function, the suppression applied to the boxes and
    scores it kept keeps every one of them. *)
Lemma suppress_idempotent_any_overlap (BoxType : Type) (default_box : BoxType)
      (computeOverlap : BoxType -> BoxType -> Q)
      (bboxes : list BoxType) (scores : list Q)
      (score_threshold nms_threshold : Q) :
  let suppress := fun boxes scores =>
    NMSFast_loop BoxType default_box computeOverlap boxes nms_threshold
                 (GetMaxScoreIndex scores score_threshold) [] in
  let kept := suppress bboxes scores in
  suppress (map (fun i => nth i bboxes default_box) kept)
           (map (score_at scores) kept)
  = seq 0 (length kept).
Proof.
  apply (nms_idempotent BoxType default_box computeOverlap nms_threshold).
Qed.

(** C8. Suppression is idempotent: for all boxes, scores and thresholds,
    [NMSBoxes] applied to the boxes and scores it kept, with the same
    thresholds, keeps every one of them: it returns all the indices of the
    kept sequence, in order, and suppresses nothing further. *)
Theorem NMSBoxes_idempotent (bboxes : list ibox) (scores : list Q)
        (score_threshold nms_threshold : Q) :
  let kept := NMSBoxes bboxes scores score_threshold nms_threshold in
  NMSBoxes (map (fun i => nth i bboxes (0, 0, 0, 0)) kept)
           (map (score_at scores) kept) score_threshold nms_threshold
  = seq 0 (length kept).
Proof.
  apply (nms_idempotent ibox (0, 0, 0, 0) rectOverlap nms_threshold).
Qed.

(** ** The order of the returned list *)

(** C1, as stated, fails: on [tied_outputs] the two detections have the
    same confidence and come back in candidate order, class 1 before
    class 0, so the returned list is not in the stated order (of which
    [claimed_order] keeps the first two keys). *)
Lemma detect_ties_not_by_class :
  ~ (forall self outputs dets,
        snd (detect Image image_as_tensor (constant_runtime outputs)
                    self example_image) = Ok dets ->
        StronglySorted claimed_order dets).
Proof.
  intro H.
  assert (E : exists dets,
             snd (detect Image image_as_tensor (constant_runtime tied_outputs)
                         example_detector example_image) = Ok dets /\
             ~ StronglySorted claimed_order dets).
  { eexists. split; [vm_compute; reflexivity|].
    intro Hs. inversion Hs as [|? ? _ Hall]; subst.
    inversion Hall as [|? ? Hord _]; subst.
    vm_compute in Hord. destruct Hord as [Hlt|[_ Hle]].
    - discriminate Hlt.
    - inversion Hle. }
  destruct E as [dets [E Hn]]. exact (Hn (H _ _ _ E)).
Qed.

(** ** Candidates below the score threshold *)

(** When no candidate scores above the score threshold, the suppression
    returns nothing and line 91 then indexes with the empty result: every
    candidate is assembled. *)
Lemma postprocess_all_below_score (self : YOLOv9) (outputs : tensor) :
  well_shaped outputs ->
  Forall (fun s => (s <= score_threshold self)%Q) (candidate_scores self outputs) ->
  Forall (fun c => (c < length (classes self))%nat)
         (map anchor_class (candidates self outputs)) ->
  kept_indices self outputs = [] /\
  exists dets,
    postprocess self outputs = Ok dets /\
    map confidence dets = candidate_scores self outputs.
Proof.
  intros Hw Hlow Hnames.
  assert (Hk : kept_indices self outputs = []).
  { apply (nms_empty ibox (0, 0, 0, 0) rectOverlap). exact Hlow. }
  split; [exact Hk|].
  rewrite (postprocess_eq self outputs Hw), Hk.
  destruct (zipped_fields (rescale_box self) anchor_score anchor_class
              (candidates self outputs) []) as [E1 [E2 _]].
  cbv zeta in E1, E2. cbn [getitem] in E1, E2.
  unfold rescale, candidate_scores.
  destruct (assemble_ok self
              (zipped (map (rescale_box self) (candidates self outputs))
                      (map anchor_score (candidates self outputs))
                      (map anchor_class (candidates self outputs)) []))
    as [dets [Hd [_ [Hc _]]]].
  - rewrite E1. exact Hnames.
  - exists dets. split; [exact Hd|]. now rewrite Hc, E2.
Qed.

(** C4 at its failing input. The two candidates of [middling_outputs] score
    1/2, above the confidence threshold 1/4 and below the score threshold
    3/4 of [strict_detector]: the suppression keeps neither, and [detect]
    returns both. *)
Theorem detect_returns_below_score_threshold :
  kept_indices strict_detector middling_outputs = [] /\
  exists d1 d2,
    snd (detect Image image_as_tensor (constant_runtime middling_outputs)
                strict_detector example_image) = Ok [d1; d2] /\
    (confidence d1 < score_threshold strict_detector)%Q /\
    (confidence d2 < score_threshold strict_detector)%Q.
Proof.
  split; [vm_compute; reflexivity|].
  eexists _, _. split; [vm_compute; reflexivity|].
  split; reflexivity.
Qed.

(** ** Where the corner conversion happens *)




(** ** What a call changes and what it depends on *)

(** C9, as the code has it. A call of [detect] assigns three fields of the
    detector, [img], [img_height] and [img_width], from its argument and
    leaves the configuration untouched; what it returns depends only on the
    image, the runtime and the configuration, not on what these three
    fields held before. *)
Theorem detect_assigns_image_fields
        (InputTensor : Type) (to_input_tensor : Image -> Z -> Z -> InputTensor)
        (session_run : InputTensor -> tensor)
        (self other : YOLOv9) (i : Image) :
  same_config other self ->
  let self' := fst (detect InputTensor to_input_tensor session_run self i) in
  img self' = Some i /\
  img_height self' = Some (shape_h i) /\
  img_width self' = Some (shape_w i) /\
  same_config self' self /\
  snd (detect InputTensor to_input_tensor session_run other i)
  = snd (detect InputTensor to_input_tensor session_run self i).
Proof.
  intros Hcfg self'. unfold self'. rewrite !detect_eq. cbn [fst snd].
  split; [reflexivity|]. split; [reflexivity|]. split; [reflexivity|].
  split; [apply same_config_set|].
  pose proof Hcfg as (_ & _ & _ & Hih & Hiw & _).
  rewrite Hih, Hiw. apply postprocess_config. exact Hcfg.
Qed.

Lemma detect_assigns_image_fields_witness :
  let self' :=
    fst (detect Image image_as_tensor (constant_runtime tied_outputs)
                example_detector example_image) in
  img self' = Some example_image /\
  img_height self' = Some (shape_h example_image) /\
  img_width self' = Some (shape_w example_image) /\
  same_config self' example_detector /\
  snd (detect Image image_as_tensor (constant_runtime tied_outputs)
              (set_img_shape example_detector (Some 480%nat) (Some 640%nat))
              example_image)
  = snd (detect Image image_as_tensor (constant_runtime tied_outputs)
                example_detector example_image).
Proof.
  apply (detect_assigns_image_fields Image image_as_tensor
           (constant_runtime tied_outputs) example_detector
           (set_img_shape example_detector (Some 480%nat) (Some 640%nat))
           example_image).
  repeat split.
Defined.

(** C9, as stated, fails: the detector after a call is not the detector
    before it; [img_height] was [None] and holds the image height. *)
Lemma detect_mutates_detector :
  img_height example_detector = None /\
  img_height (fst (detect Image image_as_tensor
                          (constant_runtime tied_outputs)
                          example_detector example_image)) = Some 1%nat /\
  ~ (forall self i,
        fst (detect Image image_as_tensor (constant_runtime tied_outputs)
                    self i) = self).
Proof.
  split; [reflexivity|]. split; [reflexivity|].
  intro H. specialize (H example_detector example_image).
  vm_compute in H. discriminate H.
Qed.

(** ** The size used for rescaling *)

(** An image of 1 x 2 pixels, [original_size = (128, 64)], input 64 x 64:
    the box centred at (16, 16) with size 8 x 8 comes back centred at
    (32, 16) with size 16 x 8, corners (24, 12) and (40, 20). *)
Lemma rescale_example :
  exists d1 d2,
    snd (detect Image image_as_tensor (constant_runtime tied_outputs)
                example_detector example_image) = Ok [d1; d2] /\
    qbox_eq (box d1) (ibox_to_Q (24, 12, 40, 20)).
Proof.
  eexists _, _. split; [vm_compute; reflexivity|].
  repeat split.
Qed.

(** * Further properties of [postprocess] *)

(** ** Shapes on which [postprocess] raises *)

(** X1. A raw output with a single anchor, or with a single channel row,
    loses an axis under [np.squeeze], and [predictions[:, 4:]] raises. *)
Theorem postprocess_single_axis_raises (self : YOLOv9) (outputs : tensor) :
  length outputs = 1%nat \/ n_anchors outputs = 1%nat ->
  postprocess self outputs = Raise IndexError_too_many_indices.
Proof.
  intro H. unfold postprocess, decode.
  assert (E : cols_from 4 (T (squeeze outputs))
              = Raise IndexError_too_many_indices).
  { unfold squeeze. destruct outputs as [|r [|r' rest]].
    - simpl in H. destruct H; discriminate.
    - destruct r as [|x [|y r]]; reflexivity.
    - destruct H as [H|H]; [simpl in H; lia|].
      rewrite H. reflexivity. }
  rewrite E. reflexivity.
Qed.

Lemma postprocess_single_axis_raises_witness :
  postprocess example_detector [[16]; [16]; [8]; [8]; [3 # 4]; [0]]%Q
  = Raise IndexError_too_many_indices.
Proof.
  apply postprocess_single_axis_raises. right. reflexivity.
Defined.

(** X2. A raw output with two to four channel rows (no class field after
    the four box fields) and at least two anchors makes [np.max] reduce
    along an axis of length 0, which raises. *)
Theorem postprocess_no_class_field_raises (self : YOLOv9) (outputs : tensor) :
  (2 <= length outputs <= 4)%nat ->
  (2 <= n_anchors outputs)%nat ->
  postprocess self outputs = Raise ValueError_zero_size_reduction.
Proof.
  intros HF HN. unfold postprocess, decode, squeeze.
  destruct outputs as [|r [|r' rest]]; simpl in HF; try lia.
  destruct (Nat.eqb (n_anchors (r :: r' :: rest)) 1) eqn:E.
  { apply Nat.eqb_eq in E. lia. }
  cbn [T cols_from bind]. unfold max_axis1. cbn [ncols_of].
  replace (length (r :: r' :: rest) - 4)%nat with 0%nat by (simpl; lia).
  reflexivity.
Qed.

Lemma postprocess_no_class_field_raises_witness :
  postprocess example_detector [[16; 48]; [16; 48]; [8; 8]; [8; 8]]%Q
  = Raise ValueError_zero_size_reduction.
Proof.
  apply postprocess_no_class_field_raises; simpl; lia.
Defined.

(** ** Where a detection comes from *)

Lemma assemble_rows (self : YOLOv9) (z : list ((Q * Q * Q * Q) * Q * nat))
      (dets : list Detection) :
  assemble self z = Ok dets ->
  Forall2 (fun d r =>
             class_index d = snd r /\ confidence d = snd (fst r) /\
             box d = fst (fst r) /\
             nth_error (classes self) (class_index d) = Some (class_name d))
          dets z.
Proof.
  revert dets. induction z as [|[[b s] l] z IH]; intros dets H.
  - cbn [assemble] in H. injection H as <-. constructor.
  - cbn [assemble] in H. unfold get_label_name in H.
    destruct (nth_error (classes self) l) as [name|] eqn:En; [|discriminate].
    cbn [bind] in H. destruct (assemble self z) as [ds|e]; [|discriminate].
    cbn [bind] in H. injection H as <-.
    constructor; [|now apply IH].
    cbn [class_index confidence box class_name fst snd]. now repeat split.
Qed.

Lemma Forall2_Forall_r {A B : Type} (R : A -> B -> Prop) (P : B -> Prop)
      (Q' : A -> Prop) (l : list A) (l' : list B) :
  (forall a b, R a b -> P b -> Q' a) ->
  Forall2 R l l' -> Forall P l' -> Forall Q' l.
Proof.
  intros HR H. induction H as [|a b l l' Hab _ IH]; intro HP.
  - constructor.
  - inversion HP; subst. constructor; [eapply HR; eassumption|now apply IH].
Qed.

(** The rows zipped on line 91 are rows of candidates, as long as the
    indices are in range. *)
Lemma zipped_from_candidates {A : Type} (rb : A -> ibox) (sc : A -> Q)
      (cl : A -> nat) (cands : list A) (indices : list nat) :
  Forall (fun i => (i < length cands)%nat) indices ->
  Forall (fun r => exists a, In a cands /\
                             r = (xywh2xyxy_box (rb a), sc a, cl a))
         (zipped (map rb cands) (map sc cands) (map cl cands) indices).
Proof.
  intro Hrange. unfold zipped. destruct indices as [|i indices].
  - cbn [getitem]. unfold xywh2xyxy. rewrite map_map, combine_map.
    rewrite (combine_map (fun a => (xywh2xyxy_box (rb a), sc a)) cl).
    apply Forall_forall. intros r Hr. apply in_map_iff in Hr.
    destruct Hr as [a [<- Ha]]. exists a. now split.
  - cbn [getitem]. set (l := i :: indices) in *. unfold xywh2xyxy.
    rewrite map_map, combine_map.
    rewrite (combine_map
               (fun k => (xywh2xyxy_box (nth k (map rb cands) (0, 0, 0, 0)),
                          nth k (map sc cands) 0%Q))
               (fun k => nth k (map cl cands) 0%nat)).
    apply Forall_forall. intros r Hr. apply in_map_iff in Hr.
    destruct Hr as [k [<- Hk]]. rewrite Forall_forall in Hrange.
    specialize (Hrange k Hk).
    destruct (nth_error cands k) as [a|] eqn:Ea.
    + exists a. split; [eapply nth_error_In; eassumption|].
      rewrite (nth_error_nth _ _ _ (map_nth_error rb _ _ Ea)).
      rewrite (nth_error_nth _ _ _ (map_nth_error sc _ _ Ea)).
      rewrite (nth_error_nth _ _ _ (map_nth_error cl _ _ Ea)).
      reflexivity.
    + apply nth_error_None in Ea. lia.
Qed.

Lemma kept_indices_in_range (self : YOLOv9) (outputs : tensor) :
  Forall (fun i => (i < length (candidates self outputs))%nat)
         (kept_indices self outputs).
Proof.
  apply Forall_forall. intros i Hi.
  apply (nms_above ibox (0, 0, 0, 0) rectOverlap) in Hi.
  destruct Hi as [Hi _]. unfold candidate_scores in Hi.
  now rewrite length_map in Hi.
Qed.

(** Every detection is a candidate: an anchor above the confidence
    threshold, with its score and its class. *)
Lemma postprocess_rows (self : YOLOv9) (outputs : tensor)
      (dets : list Detection) :
  well_shaped outputs ->
  postprocess self outputs = Ok dets ->
  Forall (fun d => exists a, In a (candidates self outputs) /\
                             confidence d = anchor_score a /\
                             class_index d = anchor_class a /\
                             box d = xywh2xyxy_box (rescale_box self a))
         dets.
Proof.
  intros Hw Hd. rewrite (postprocess_eq self outputs Hw) in Hd.
  apply assemble_rows in Hd.
  eapply Forall2_Forall_r; [|exact Hd|].
  2: { unfold rescale, candidate_scores.
       apply zipped_from_candidates, kept_indices_in_range. }
  intros d r (Hc & Hs & Hb & _) (a & Ha & ->). exists a.
  cbn [fst snd] in *. now repeat split.
Qed.

(** [np.argmax] against [np.max]: the index returned holds the maximum, and
    no earlier field reaches it. *)
Lemma argmax_from_spec (xs pre : list Q) (best : Q) (besti : nat) :
  (besti < length pre)%nat ->
  nth besti pre 0%Q = best ->
  (forall k, (k < besti)%nat -> (nth k pre 0 < best)%Q) ->
  (forall k, (k < length pre)%nat -> (nth k pre 0 <= best)%Q) ->
  let j := argmax_from xs (length pre) best besti in
  let m := fold_left (fun m y => if Qltb m y then y else m) xs best in
  (j < length (pre ++ xs))%nat /\
  nth j (pre ++ xs) 0%Q = m /\
  (forall k, (k < j)%nat -> (nth k (pre ++ xs) 0 < m)%Q).
Proof.
  revert pre best besti.
  induction xs as [|y ys IH]; intros pre best besti Hlt Hbest Hbefore Hall.
  - cbn [argmax_from fold_left]. rewrite app_nil_r. now repeat split.
  - cbn [argmax_from fold_left].
    replace (pre ++ y :: ys) with ((pre ++ [y]) ++ ys)
      by now rewrite <- app_assoc.
    replace (S (length pre)) with (length (pre ++ [y]))
      by (rewrite length_app; simpl; lia).
    destruct (Qltb best y) eqn:E.
    + apply Qltb_lt in E. apply IH.
      * rewrite length_app. simpl. lia.
      * rewrite app_nth2, Nat.sub_diag by lia. reflexivity.
      * intros k Hk. rewrite app_nth1 by lia.
        eapply Qle_lt_trans; [now apply Hall|exact E].
      * intros k Hk. rewrite length_app in Hk. simpl in Hk.
        destruct (Nat.eq_dec k (length pre)) as [->|Hne].
        -- rewrite app_nth2, Nat.sub_diag by lia. apply Qle_refl.
        -- rewrite app_nth1 by lia. apply Qlt_le_weak.
           eapply Qle_lt_trans; [apply Hall; lia|exact E].
    + apply Qltb_ge in E. apply IH.
      * rewrite length_app. simpl. lia.
      * rewrite app_nth1 by lia. exact Hbest.
      * intros k Hk. rewrite app_nth1 by lia. now apply Hbefore.
      * intros k Hk. rewrite length_app in Hk. simpl in Hk.
        destruct (Nat.eq_dec k (length pre)) as [->|Hne].
        -- rewrite app_nth2, Nat.sub_diag by lia. exact E.
        -- rewrite app_nth1 by lia. apply Hall. lia.
Qed.

Lemma anchor_class_spec (a : list Q) :
  (5 <= length a)%nat ->
  nth (4 + anchor_class a) a 0%Q = anchor_score a /\
  (forall k, (k < anchor_class a)%nat -> (nth (4 + k) a 0 < anchor_score a)%Q) /\
  (forall k, (4 <= k < length a)%nat -> (nth k a 0 <= anchor_score a)%Q).
Proof.
  intro Hlen.
  assert (Hmax := anchor_score_is_max a Hlen).
  assert (Hl : length (skipn 4 a) = (length a - 4)%nat) by apply length_skipn.
  unfold anchor_class, anchor_score in *.
  destruct (skipn 4 a) as [|x xs] eqn:E; [simpl in Hl; lia|].
  destruct (argmax_from_spec xs [x] x 0) as (_ & Hnth & Hbefore).
  - simpl. lia.
  - reflexivity.
  - intros k Hk. lia.
  - intros k Hk. simpl in Hk. replace k with 0%nat by lia. apply Qle_refl.
  - cbn [length app] in Hnth, Hbefore.
    rewrite <- !E in *. split; [|split].
    + rewrite <- nth_skipn. rewrite E in *. exact Hnth.
    + intros k Hk. rewrite <- nth_skipn. rewrite E in *. now apply Hbefore.
    + intros k Hk. destruct Hmax as [_ Hall]. rewrite Forall_forall in Hall.
      replace k with (4 + (k - 4))%nat by lia. rewrite <- nth_skipn.
      rewrite E in *. apply Hall. rewrite <- E. apply nth_In.
      rewrite length_skipn. lia.
Qed.

(** X3. Every detection returned for a well-shaped raw output comes from
    one of its anchors: its confidence is the field of that anchor at
    position 4 + class_index, no class field of the anchor is larger, and
    every class field before that position is strictly smaller (the lowest
    index wins a tie). *)
Theorem detection_is_argmax_of_anchor (self : YOLOv9) (outputs : tensor)
        (dets : list Detection) :
  well_shaped outputs ->
  postprocess self outputs = Ok dets ->
  Forall (fun d => exists a,
              In a (anchors outputs) /\
              nth (4 + class_index d) a 0%Q = confidence d /\
              (class_index d < length outputs - 4)%nat /\
              (forall k, (k < class_index d)%nat ->
                         (nth (4 + k) a 0 < confidence d)%Q) /\
              (forall k, (4 <= k < length a)%nat ->
                         (nth k a 0 <= confidence d)%Q))
         dets.
Proof.
  intros Hw Hd. pose proof Hw as [HF _].
  eapply Forall_impl; [|exact (postprocess_rows self outputs dets Hw Hd)].
  intros d (a & Ha & Hc & Hi & _). apply filter_In in Ha.
  destruct Ha as [Ha _]. exists a.
  assert (Hlen : (5 <= length a)%nat) by now rewrite (anchors_length _ _ Ha).
  destruct (anchor_class_spec a Hlen) as (H1 & H2 & H3).
  rewrite Hc, Hi. split; [exact Ha|]. split; [exact H1|].
  split; [|split; assumption].
  rewrite <- (anchors_length _ _ Ha). now apply anchor_class_bound.
Qed.

Lemma detection_is_argmax_of_anchor_witness :
  exists dets,
    postprocess example_detector tied_outputs = Ok dets /\
    Forall (fun d => exists a,
                In a (anchors tied_outputs) /\
                nth (4 + class_index d) a 0%Q = confidence d /\
                (class_index d < length tied_outputs - 4)%nat /\
                (forall k, (k < class_index d)%nat ->
                           (nth (4 + k) a 0 < confidence d)%Q) /\
                (forall k, (4 <= k < length a)%nat ->
                           (nth k a 0 <= confidence d)%Q))
           dets.
Proof.
  eexists. split; [vm_compute; reflexivity|].
  apply (detection_is_argmax_of_anchor example_detector tied_outputs).
  - split; simpl; lia.
  - vm_compute. reflexivity.
Defined.

(** X4. Every detection returned for a well-shaped raw output has a
    confidence strictly above the confidence threshold, also when the
    suppression kept nothing. *)
Theorem detections_above_conf_threshold (self : YOLOv9) (outputs : tensor)
        (dets : list Detection) :
  well_shaped outputs ->
  postprocess self outputs = Ok dets ->
  Forall (fun d => (conf_threshold self < confidence d)%Q) dets.
Proof.
  intros Hw Hd.
  eapply Forall_impl; [|exact (postprocess_rows self outputs dets Hw Hd)].
  intros d (a & Ha & Hc & _). apply filter_In in Ha. destruct Ha as [_ Ha].
  rewrite Hc. now apply Qltb_lt.
Qed.

Lemma detections_above_conf_threshold_witness :
  exists dets,
    postprocess strict_detector middling_outputs = Ok dets /\
    Forall (fun d => (conf_threshold strict_detector < confidence d)%Q) dets.
Proof.
  eexists. split; [vm_compute; reflexivity|].
  apply (detections_above_conf_threshold strict_detector middling_outputs).
  - split; simpl; lia.
  - vm_compute. reflexivity.
Defined.

(** X6. Whatever the raw output, every detection [postprocess] returns
    carries the name the class table holds at its class index. *)
Theorem detection_name_is_table_entry (self : YOLOv9) (outputs : tensor)
        (dets : list Detection) :
  postprocess self outputs = Ok dets ->
  Forall (fun d => nth_error (classes self) (class_index d)
                   = Some (class_name d)) dets.
Proof.
  unfold postprocess. destruct (decode self outputs) as [[[p s] c]|e];
    cbn [bind]; [|discriminate].
  intro H. apply assemble_rows in H.
  induction H as [|d r dets z Hdr _ IH]; constructor; [|exact IH].
  now destruct Hdr as (_ & _ & _ & Hn).
Qed.

Lemma detection_name_is_table_entry_witness :
  exists dets,
    postprocess example_detector tied_outputs = Ok dets /\
    Forall (fun d => nth_error (classes example_detector) (class_index d)
                     = Some (class_name d)) dets.
Proof.
  eexists. split; [vm_compute; reflexivity|].
  apply (detection_name_is_table_entry example_detector tied_outputs).
  vm_compute. reflexivity.
Defined.

(** ** What the suppression lets through *)

(** The confidences of the returned list are the scores selected on
    line 91. *)
Lemma postprocess_confidences (self : YOLOv9) (outputs : tensor)
      (dets : list Detection) :
  well_shaped outputs ->
  postprocess self outputs = Ok dets ->
  map confidence dets
  = getitem 0%Q (candidate_scores self outputs) (kept_indices self outputs).
Proof.
  intros Hw Hd. rewrite (postprocess_eq self outputs Hw) in Hd.
  apply assemble_fields in Hd. destruct Hd as [_ [Hconf _]].
  unfold rescale, candidate_scores in Hconf.
  destruct (zipped_fields (rescale_box self) anchor_score anchor_class
              (candidates self outputs) (kept_indices self outputs))
    as [_ [E _]].
  cbv zeta in E. now rewrite E in Hconf.
Qed.

Lemma kept_indices_nonempty (self : YOLOv9) (outputs : tensor) :
  Exists (fun s => (score_threshold self < s)%Q)
         (candidate_scores self outputs) ->
  kept_indices self outputs <> [].
Proof.
  apply (nms_nonempty ibox (0, 0, 0, 0) rectOverlap).
Qed.

Lemma getitem_nonempty {A : Type} (d : A) (a : list A) (indices : list nat) :
  indices <> [] -> getitem d a indices = map (fun i => nth i a d) indices.
Proof.
  destruct indices; [congruence|reflexivity].
Qed.

(** X5. When at least one candidate of a well-shaped raw output scores
    above the score threshold, every detection returned has a confidence
    strictly above the score threshold. *)
Theorem detections_above_score_threshold (self : YOLOv9) (outputs : tensor)
        (dets : list Detection) :
  well_shaped outputs ->
  Exists (fun s => (score_threshold self < s)%Q)
         (candidate_scores self outputs) ->
  postprocess self outputs = Ok dets ->
  Forall (fun d => (score_threshold self < confidence d)%Q) dets.
Proof.
  intros Hw Hex Hd.
  apply (proj1 (Forall_map confidence
                  (fun s => (score_threshold self < s)%Q) dets)).
  rewrite (postprocess_confidences self outputs dets Hw Hd).
  rewrite getitem_nonempty by now apply kept_indices_nonempty.
  apply Forall_forall. intros s Hs. apply in_map_iff in Hs.
  destruct Hs as [i [<- Hi]].
  apply (nms_above ibox (0, 0, 0, 0) rectOverlap) in Hi. now destruct Hi.
Qed.

Lemma detections_above_score_threshold_witness :
  exists dets,
    postprocess example_detector tied_outputs = Ok dets /\
    Forall (fun d => (score_threshold example_detector < confidence d)%Q) dets.
Proof.
  eexists. split; [vm_compute; reflexivity|].
  apply (detections_above_score_threshold example_detector tied_outputs).
  - split; simpl; lia.
  - vm_compute. constructor. reflexivity.
  - vm_compute. reflexivity.
Defined.

Lemma score_index_from_complete (scores : list Q) (threshold : Q)
      (i k : nat) :
  (k < length scores)%nat ->
  (threshold < nth k scores 0)%Q ->
  In (nth k scores 0%Q, (i + k)%nat) (score_index_from i scores threshold).
Proof.
  revert i k. induction scores as [|s rest IH]; intros i k Hk Hs.
  - simpl in Hk. lia.
  - destruct k as [|k].
    + cbn [nth] in *. cbn [score_index_from]. apply Qltb_lt in Hs.
      rewrite Hs, Nat.add_0_r. now left.
    + cbn [nth] in *. cbn [score_index_from]. simpl in Hk.
      replace (i + S k)%nat with (S i + k)%nat by lia.
      destruct (Qltb threshold s); [right|]; apply IH; (lia || assumption).
Qed.

Section FirstKept.
Variable BoxType : Type.
Variable default_box : BoxType.
Variable computeOverlap : BoxType -> BoxType -> Q.
Variable bboxes : list BoxType.
Variable nms_threshold : Q.

Lemma loop_extends (order : list (Q * nat)) (indices : list nat) :
  exists more,
    NMSFast_loop BoxType default_box computeOverlap bboxes nms_threshold
                 order indices = indices ++ more.
Proof.
  revert indices. induction order as [|[s idx] rest IH]; intro indices.
  - exists []. now rewrite app_nil_r.
  - cbn [NMSFast_loop].
    destruct (keep_against _ _ _ _ _ indices idx).
    + destruct (IH (indices ++ [idx])) as [more E].
      exists (idx :: more). rewrite E, <- app_assoc. reflexivity.
    + apply IH.
Qed.

(** The index returned first holds the largest score of all. *)
Lemma nms_first_is_max (scores : list Q) (score_threshold : Q)
      (h : nat) (rest : list nat) :
  NMSFast_loop BoxType default_box computeOverlap bboxes nms_threshold
               (GetMaxScoreIndex scores score_threshold) [] = h :: rest ->
  Forall (fun s => (s <= score_at scores h)%Q) scores.
Proof.
  intro E.
  pose proof (GetMaxScoreIndex_sorted scores score_threshold) as Hsorted.
  assert (Hspec := GetMaxScoreIndex_spec scores score_threshold).
  assert (Hin : forall k, (k < length scores)%nat ->
                  (score_threshold < nth k scores 0)%Q ->
                  In (nth k scores 0%Q, k)
                     (GetMaxScoreIndex scores score_threshold)).
  { intros k Hk Hs. unfold GetMaxScoreIndex. apply stable_sort_in.
    apply (score_index_from_complete scores score_threshold 0 k Hk Hs). }
  destruct (GetMaxScoreIndex scores score_threshold) as [|[s idx] order].
  - discriminate E.
  - cbn [NMSFast_loop keep_against forallb app] in E.
    destruct (loop_extends order [idx]) as [more Em].
    rewrite Em in E. injection E as <- _.
    destruct (Hspec (s, idx) (or_introl eq_refl)) as (_ & Hs & Hthr).
    cbn [fst snd] in Hs, Hthr. rewrite Hs.
    inversion Hsorted as [|? ? _ Hall]; subst.
    rewrite Forall_forall in Hall.
    apply Forall_forall. intros x Hx.
    destruct (In_nth _ _ 0%Q Hx) as (k & Hk & <-).
    destruct (Qlt_le_dec score_threshold (nth k scores 0%Q)) as [Habove|Hbelow].
    + destruct (Hin k Hk Habove) as [Heq|Hrest].
      * injection Heq as -> _. apply Qle_refl.
      * apply Hall in Hrest. apply pair_precedes_le in Hrest. exact Hrest.
    + apply Qlt_le_weak. eapply Qle_lt_trans; eassumption.
Qed.
End FirstKept.

(** X7. When at least one candidate of a well-shaped raw output scores
    above the score threshold, the list returned is not empty and its first
    detection has the largest score of all the anchors of the raw output. *)
Theorem first_detection_is_best (self : YOLOv9) (outputs : tensor)
        (dets : list Detection) :
  well_shaped outputs ->
  Exists (fun s => (score_threshold self < s)%Q)
         (candidate_scores self outputs) ->
  postprocess self outputs = Ok dets ->
  exists d rest,
    dets = d :: rest /\
    Forall (fun a => (anchor_score a <= confidence d)%Q) (anchors outputs).
Proof.
  intros Hw Hex Hd.
  pose proof (postprocess_confidences self outputs dets Hw Hd) as Hconf.
  pose proof (kept_indices_nonempty self outputs Hex) as Hne.
  rewrite (getitem_nonempty _ _ _ Hne) in Hconf.
  destruct (kept_indices self outputs) as [|h ks] eqn:Ek; [congruence|].
  destruct dets as [|d rest]; [discriminate Hconf|].
  cbn [map] in Hconf. injection Hconf as Hd0 _.
  exists d, rest. split; [reflexivity|].
  pose proof (nms_first_is_max ibox (0, 0, 0, 0) rectOverlap
                (rescale self (candidates self outputs)) (iou_threshold self)
                (candidate_scores self outputs) (score_threshold self)
                h ks Ek) as Hmax.
  assert (Hh : (h < length (candidate_scores self outputs))%nat).
  { assert (Hin : In h (kept_indices self outputs)) by (rewrite Ek; now left).
    apply (nms_above ibox (0, 0, 0, 0) rectOverlap) in Hin. now destruct Hin. }
  assert (Habove : (conf_threshold self < confidence d)%Q).
  { rewrite Hd0. unfold candidate_scores in *.
    assert (Hi : In (nth h (map anchor_score (candidates self outputs)) 0%Q)
                    (map anchor_score (candidates self outputs)))
      by now apply nth_In.
    apply in_map_iff in Hi. destruct Hi as [a [<- Ha]].
    apply filter_In in Ha. destruct Ha as [_ Ha]. now apply Qltb_lt. }
  apply Forall_forall. intros a Ha.
  destruct (above_conf self a) eqn:Ea.
  - rewrite Forall_forall in Hmax. rewrite Hd0. apply Hmax.
    unfold candidate_scores, candidates. apply in_map. apply filter_In.
    now split.
  - unfold above_conf in Ea. apply Qltb_ge in Ea. apply Qlt_le_weak.
    eapply Qle_lt_trans; eassumption.
Qed.

Lemma first_detection_is_best_witness :
  exists d rest,
    postprocess example_detector one_class_outputs = Ok (d :: rest) /\
    Forall (fun a => (anchor_score a <= confidence d)%Q)
           (anchors one_class_outputs).
Proof.
  destruct (first_detection_is_best example_detector one_class_outputs
              [mkDetection 0 (3 # 4) (48 # 2, 24 # 2, 80 # 2, 40 # 2)%Q "person";
               mkDetection 0 (1 # 2) (176 # 2, 88 # 2, 208 # 2, 104 # 2)%Q
                           "person"])
    as (d & rest & E & H).
  - split; simpl; lia.
  - vm_compute. constructor. reflexivity.
  - vm_compute. reflexivity.
  - exists d, rest. injection E as <- <-. split; [vm_compute; reflexivity|].
    exact H.
Defined.

Lemma StronglySorted_NoDup {A : Type} (R : A -> A -> Prop) (l : list A) :
  (forall x, ~ R x x) -> StronglySorted R l -> NoDup l.
Proof.
  intros Hirr H. induction H as [|x l _ IH Hx]; constructor; [|exact IH].
  intro Hin. rewrite Forall_forall in Hx. exact (Hirr x (Hx x Hin)).
Qed.

Lemma precedes_irrefl (scores : list Q) (i : nat) : ~ precedes scores i i.
Proof.
  intros [H|[_ H]]; [exact (Qlt_irrefl _ H)|lia].
Qed.

Lemma kept_indices_NoDup (self : YOLOv9) (outputs : tensor) :
  NoDup (kept_indices self outputs).
Proof.
  apply (StronglySorted_NoDup (precedes (candidate_scores self outputs))).
  - apply precedes_irrefl.
  - apply (nms_sorted ibox (0, 0, 0, 0) rectOverlap).
Qed.

Lemma kept_indices_length (self : YOLOv9) (outputs : tensor) :
  (length (kept_indices self outputs)
   <= length (candidates self outputs))%nat.
Proof.
  rewrite <- (length_seq (length (candidates self outputs)) 0).
  apply NoDup_incl_length; [apply kept_indices_NoDup|].
  intros i Hi. apply in_seq.
  pose proof (kept_indices_in_range self outputs) as H.
  rewrite Forall_forall in H. specialize (H i Hi). lia.
Qed.

(** X8. For a well-shaped raw output, no candidate index is kept twice,
    and the list returned never has more detections than there are
    candidates, nor more candidates than anchors. *)
Theorem detections_bounded_by_anchors (self : YOLOv9) (outputs : tensor)
        (dets : list Detection) :
  well_shaped outputs ->
  postprocess self outputs = Ok dets ->
  NoDup (kept_indices self outputs) /\
  (length dets <= length (candidates self outputs))%nat /\
  (length (candidates self outputs) <= n_anchors outputs)%nat.
Proof.
  intros Hw Hd. split; [apply kept_indices_NoDup|]. split.
  - rewrite <- (length_map confidence dets).
    rewrite (postprocess_confidences self outputs dets Hw Hd).
    destruct (kept_indices self outputs) as [|k ks] eqn:E.
    + cbn [getitem]. unfold candidate_scores. now rewrite length_map.
    + rewrite getitem_nonempty by discriminate. rewrite length_map, <- E.
      apply kept_indices_length.
  - unfold candidates. etransitivity; [apply filter_length_le|].
    unfold anchors. now rewrite length_map, length_seq.
Qed.

Lemma detections_bounded_by_anchors_witness :
  exists dets,
    postprocess example_detector tied_outputs = Ok dets /\
    NoDup (kept_indices example_detector tied_outputs) /\
    (length dets <= length (candidates example_detector tied_outputs))%nat /\
    (length (candidates example_detector tied_outputs)
     <= n_anchors tied_outputs)%nat.
Proof.
  eexists. split; [vm_compute; reflexivity|].
  apply (detections_bounded_by_anchors example_detector tied_outputs).
  - split; simpl; lia.
  - vm_compute. reflexivity.
Defined.

Lemma kept_scores_descending (self : YOLOv9) (outputs : tensor) :
  StronglySorted (fun x y => (y <= x)%Q)
                 (map (score_at (candidate_scores self outputs))
                      (kept_indices self outputs)).
Proof.
  apply (proj1 (StronglySorted_map _ (score_at (candidate_scores self outputs))
                                   (kept_indices self outputs))).
  eapply StronglySorted_weaken;
    [|apply (nms_sorted ibox (0, 0, 0, 0) rectOverlap)].
  intros a b _ _ [Hlt|[Heq _]]; [now apply Qlt_le_weak|].
  rewrite Heq. apply Qle_refl.
Qed.



(** ** Overlap of the kept boxes *)

Lemma inter_area_le (a b : ibox) :
  0 <= inter_area a b /\
  (0 < inter_area a b -> inter_area a b <= area a /\ inter_area a b <= area b).
Proof.
  destruct a as [[[ax ay] aw] ah], b as [[[bx by'] bw] bh].
  unfold inter_area, area.
  set (iw := Z.min (ax + aw) (bx + bw) - Z.max ax bx).
  set (ih := Z.min (ay + ah) (by' + bh) - Z.max ay by').
  destruct (iw <=? 0) eqn:Ew; [cbn [orb]; lia|].
  destruct (ih <=? 0) eqn:Eh; [cbn [orb]; lia|].
  cbn [orb]. apply Z.leb_gt in Ew, Eh.
  assert (iw <= aw /\ iw <= bw /\ ih <= ah /\ ih <= bh) by (unfold iw, ih; lia).
  split; [nia|]. intros _. split; nia.
Qed.

(** The overlap OpenCV computes never exceeds 1. *)
Lemma rectOverlap_le_1 (a b : ibox) : (rectOverlap a b <= 1)%Q.
Proof.
  unfold rectOverlap. destruct (area a + area b <=? 0) eqn:E.
  - apply Qle_refl.
  - apply Z.leb_gt in E. destruct (inter_area_le a b) as [H0 Hle].
    destruct (Z.eq_dec (inter_area a b) 0) as [Hz|Hnz].
    + rewrite Hz. unfold Qdiv. rewrite Qmult_0_l. discriminate.
    + destruct Hle as [Ha Hb]; [lia|].
      apply Qle_shift_div_r.
      * unfold Qlt. simpl. lia.
      * rewrite Qmult_1_l. unfold Qle. simpl. lia.
Qed.

(** A rectangle of positive width and height overlaps itself entirely. *)
Lemma rectOverlap_self (x y w h : Z) :
  0 < w -> 0 < h -> (rectOverlap (x, y, w, h) (x, y, w, h) == 1)%Q.
Proof.
  intros Hw Hh. unfold rectOverlap, inter_area, area.
  assert (Hpos : 0 < w * h) by nia.
  destruct (w * h + w * h <=? 0) eqn:E; [apply Z.leb_le in E; lia|].
  replace (Z.min (x + w) (x + w) - Z.max x x) with w by lia.
  replace (Z.min (y + h) (y + h) - Z.max y y) with h by lia.
  destruct (w <=? 0) eqn:Ew; [apply Z.leb_le in Ew; lia|].
  destruct (h <=? 0) eqn:Eh; [apply Z.leb_le in Eh; lia|].
  cbn [orb]. replace (w * h + w * h - w * h) with (w * h) by lia.
  unfold Qdiv. apply Qmult_inv_r. unfold Qeq. simpl. lia.
Qed.

(** X10. Of two boxes the suppression keeps, the one kept later overlaps
    the one kept earlier by at most the IoU threshold, the overlap being the
    one OpenCV computes on the rescaled rows read as (x, y, width,
    height). *)
Theorem kept_boxes_overlap_bounded (self : YOLOv9) (outputs : tensor)
        (j k : nat) :
  (k < j < length (kept_indices self outputs))%nat ->
  let boxes := rescale self (candidates self outputs) in
  let kept := kept_indices self outputs in
  (rectOverlap (nth (nth j kept 0%nat) boxes (0, 0, 0, 0)%Z)
               (nth (nth k kept 0%nat) boxes (0, 0, 0, 0)%Z)
   <= iou_threshold self)%Q.
Proof.
  intros Hjk boxes kept. apply Qle_bool_iff.
  apply (nms_compatible ibox (0, 0, 0, 0) rectOverlap (iou_threshold self)
           boxes (candidate_scores self outputs) (score_threshold self)).
  exact Hjk.
Qed.

Lemma kept_boxes_overlap_bounded_witness :
  (rectOverlap
     (nth (nth 1%nat (kept_indices example_detector tied_outputs) 0%nat)
          (rescale example_detector (candidates example_detector tied_outputs))
          (0, 0, 0, 0)%Z)
     (nth (nth 0%nat (kept_indices example_detector tied_outputs) 0%nat)
          (rescale example_detector (candidates example_detector tied_outputs))
          (0, 0, 0, 0)%Z)
   <= iou_threshold example_detector)%Q.
Proof.
  apply (kept_boxes_overlap_bounded example_detector tied_outputs 1 0).
  vm_compute. split; constructor.
Defined.

(** X11. With an IoU threshold below 1, two candidates whose rescaled boxes
    are the same rectangle of positive width and height are never both
    kept, whatever their classes: the suppression is not done per class. *)
Theorem identical_boxes_not_both_kept (self : YOLOv9) (outputs : tensor)
        (i j : nat) (x y w h : Z) :
  (iou_threshold self < 1)%Q ->
  0 < w -> 0 < h ->
  i <> j ->
  nth i (rescale self (candidates self outputs)) (0, 0, 0, 0) = (x, y, w, h) ->
  nth j (rescale self (candidates self outputs)) (0, 0, 0, 0) = (x, y, w, h) ->
  ~ (In i (kept_indices self outputs) /\ In j (kept_indices self outputs)).
Proof.
  intros Hthr Hw Hh Hij Hi Hj [Hini Hinj].
  destruct (In_nth _ _ 0%nat Hini) as (a & Ha & Ea).
  destruct (In_nth _ _ 0%nat Hinj) as (b & Hb & Eb).
  assert (Hab : a <> b) by (intros ->; congruence).
  assert (Hover : forall p q,
             (q < p < length (kept_indices self outputs))%nat ->
             nth (nth p (kept_indices self outputs) 0%nat)
                 (rescale self (candidates self outputs)) (0, 0, 0, 0)
             = (x, y, w, h) ->
             nth (nth q (kept_indices self outputs) 0%nat)
                 (rescale self (candidates self outputs)) (0, 0, 0, 0)
             = (x, y, w, h) ->
             False).
  { intros p q Hpq Hp Hq.
    assert (Hc : Qle_bool
                   (rectOverlap
                      (nth (nth p (kept_indices self outputs) 0%nat)
                           (rescale self (candidates self outputs))
                           (0, 0, 0, 0))
                      (nth (nth q (kept_indices self outputs) 0%nat)
                           (rescale self (candidates self outputs))
                           (0, 0, 0, 0)))
                   (iou_threshold self) = true).
    { apply (nms_compatible ibox (0, 0, 0, 0) rectOverlap
               (iou_threshold self)
               (rescale self (candidates self outputs))
               (candidate_scores self outputs) (score_threshold self)).
      exact Hpq. }
    apply Qle_bool_iff in Hc. rewrite Hp, Hq in Hc.
    rewrite (rectOverlap_self x y w h Hw Hh) in Hc.
    exact (Qlt_not_le _ _ Hthr Hc). }
  destruct (Nat.lt_ge_cases a b) as [Hlt|Hge].
  - apply (Hover b a); [lia|now rewrite Eb|now rewrite Ea].
  - apply (Hover a b); [lia|now rewrite Ea|now rewrite Eb].
Qed.

Lemma identical_boxes_not_both_kept_witness :
  ~ (In 0%nat (kept_indices example_detector twin_outputs) /\
     In 1%nat (kept_indices example_detector twin_outputs)).
Proof.
  apply (identical_boxes_not_both_kept example_detector twin_outputs
           0 1 32 16 16 8).
  - reflexivity.
  - lia.
  - lia.
  - discriminate.
  - reflexivity.
  - reflexivity.
Defined.

Section KeepEverything.
Variable BoxType : Type.
Variable default_box : BoxType.
Variable computeOverlap : BoxType -> BoxType -> Q.
Variable bboxes : list BoxType.
Variable nms_threshold : Q.
Hypothesis overlap_below :
  forall a b, (computeOverlap a b <= nms_threshold)%Q.

Lemma loop_keeps_everything (order : list (Q * nat)) (indices : list nat) :
  NMSFast_loop BoxType default_box computeOverlap bboxes nms_threshold
               order indices
  = indices ++ map snd order.
Proof.
  revert indices. induction order as [|[s idx] rest IH]; intro indices.
  - simpl. now rewrite app_nil_r.
  - cbn [NMSFast_loop map snd].
    assert (Hk : keep_against BoxType default_box computeOverlap bboxes
                              nms_threshold indices idx = true).
    { unfold keep_against. apply forallb_forall. intros k _.
      apply Qle_bool_iff. apply overlap_below. }
    rewrite Hk, IH, <- app_assoc. reflexivity.
Qed.
End KeepEverything.

(** X12. With an IoU threshold of 1 or more the suppression removes nothing:
    every candidate that scores above the score threshold is kept. *)
Theorem iou_threshold_one_keeps_all (self : YOLOv9) (outputs : tensor)
        (i : nat) :
  (1 <= iou_threshold self)%Q ->
  (i < length (candidate_scores self outputs))%nat ->
  (score_threshold self < score_at (candidate_scores self outputs) i)%Q ->
  In i (kept_indices self outputs).
Proof.
  intros Hthr Hi Hs. unfold kept_indices, nms_indices, NMSBoxes.
  rewrite loop_keeps_everything.
  - cbn [app]. apply in_map_iff. exists (score_at (candidate_scores self outputs) i, i).
    split; [reflexivity|]. unfold GetMaxScoreIndex. apply stable_sort_in.
    apply (score_index_from_complete (candidate_scores self outputs)
             (score_threshold self) 0 i Hi Hs).
  - intros a b. eapply Qle_trans; [apply rectOverlap_le_1|exact Hthr].
Qed.

Lemma iou_threshold_one_keeps_all_witness :
  In 0%nat
     (kept_indices
        (mkYOLOv9 (1 # 4) 1 (1 # 8) None None 64 64 128 64
                  ["person"; "car"]%string None)
        twin_outputs).
Proof.
  apply (iou_threshold_one_keeps_all
           (mkYOLOv9 (1 # 4) 1 (1 # 8) None None 64 64 128 64
                     ["person"; "car"]%string None)
           twin_outputs 0).
  - vm_compute. discriminate.
  - simpl. lia.
  - reflexivity.
Defined.

(** ** Successive calls of [detect] *)

(** X13. A call of [detect] leaves no trace in the next one: after a call
    on a first image, a call on a second image returns what it returns on
    the fresh detector, and leaves the detector in the same state. *)
Theorem detect_calls_independent
        (InputTensor : Type) (to_input_tensor : Image -> Z -> Z -> InputTensor)
        (session_run : InputTensor -> tensor)
        (self : YOLOv9) (i1 i2 : Image) :
  let detect := detect InputTensor to_input_tensor session_run in
  detect (fst (detect self i1)) i2 = detect self i2.
Proof.
  cbv zeta. rewrite !detect_eq. cbn [fst]. f_equal.
  apply postprocess_config. apply same_config_set.
Qed.

(** * Properties of [draw_detections] *)

Section DrawingFacts.
Variable color_palette : list (Q * Q * Q).
Variable format_confidence : Q -> string.
Variable getTextSize : string -> Z * Z.

Let draw := draw_detections color_palette format_confidence getTextSize.

(** A detection whose class index has a colour and a name. *)
Let drawable (self : YOLOv9) (d : Detection) : Prop :=
  (class_index d < length color_palette)%nat /\
  (class_index d < length (classes self))%nat.

Lemma draw_calls_length (x1 y1 x2 y2 : Z) (color : Q * Q * Q)
      (label : string) :
  length (draw_calls getTextSize x1 y1 x2 y2 color label) = 3%nat.
Proof.
  unfold draw_calls. destruct (getTextSize label). reflexivity.
Qed.

(** Drawing a list that starts with drawable detections: their calls come
    first, then whatever the rest of the list gives. *)
Lemma draw_app (self : YOLOv9) (good rest : list Detection) :
  Forall (drawable self) good ->
  draw self (good ++ rest)
  = (fst (draw self good) ++ fst (draw self rest), snd (draw self rest)) /\
  snd (draw self good) = None /\
  length (fst (draw self good)) = (3 * length good)%nat.
Proof.
  induction 1 as [|d good [Hp Hn] _ IH].
  - cbn [app]. unfold draw. cbn [draw_detections fst snd app length].
    now destruct (draw_detections _ _ _ self rest).
  - destruct IH as (IH1 & IH2 & IH3).
    unfold draw in *. cbn [app draw_detections].
    destruct (box_astype_int (box d)) as [[[x1 y1] x2] y2].
    destruct (nth_error color_palette (class_index d)) as [color|] eqn:Ec.
    2: { apply nth_error_None in Ec. lia. }
    destruct (nth_error (classes self) (class_index d)) as [name|] eqn:En.
    2: { apply nth_error_None in En. lia. }
    rewrite IH1.
    destruct (draw_detections _ _ _ self good) as [calls e].
    cbn [fst snd] in *. subst e. rewrite <- app_assoc.
    split; [reflexivity|]. split; [reflexivity|].
    rewrite length_app, draw_calls_length, IH3. simpl. lia.
Qed.

(** X14. What [postprocess] returns can be drawn: with a palette that has a
    colour for every class name, [draw_detections] raises nothing on the
    list [postprocess] returned and makes three drawing calls per
    detection. *)
Theorem draw_of_postprocess_succeeds (self : YOLOv9) (outputs : tensor)
        (dets : list Detection) :
  postprocess self outputs = Ok dets ->
  (length (classes self) <= length color_palette)%nat ->
  snd (draw_detections color_palette format_confidence getTextSize self dets)
  = None /\
  length (fst (draw_detections color_palette format_confidence getTextSize
                               self dets))
  = (3 * length dets)%nat.
Proof.
  intros Hd Hlen.
  assert (Hgood : Forall (drawable self) dets).
  { unfold postprocess in Hd.
    destruct (decode self outputs) as [[[p s] c]|e]; cbn [bind] in Hd;
      [|discriminate].
    apply assemble_rows in Hd.
    induction Hd as [|d r dets z Hdr _ IH]; constructor; [|exact IH].
    destruct Hdr as (_ & _ & _ & Hn).
    assert (Hlt : (class_index d < length (classes self))%nat).
    { apply nth_error_Some. congruence. }
    split; lia. }
  destruct (draw_app self dets [] Hgood) as (_ & H2 & H3).
  split; assumption.
Qed.

(** X15. The loop is not atomic: when the detections before a given one all
    have a colour and a name and that one has a class index outside the
    palette, [draw_detections] raises the palette's index error after it
    has made the calls of all the detections before it, three for each,
    and none for those after. *)
Theorem draw_stops_at_unknown_class (self : YOLOv9)
        (good rest : list Detection) (bad : Detection) :
  Forall (fun d => (class_index d < length color_palette)%nat /\
                   (class_index d < length (classes self))%nat) good ->
  (length color_palette <= class_index bad)%nat ->
  draw_detections color_palette format_confidence getTextSize self
                  (good ++ bad :: rest)
  = (fst (draw_detections color_palette format_confidence getTextSize
                          self good),
     Some IndexError_color_palette) /\
  length (fst (draw_detections color_palette format_confidence getTextSize
                               self good))
  = (3 * length good)%nat.
Proof.
  intros Hgood Hbad.
  destruct (draw_app self good (bad :: rest) Hgood) as (H1 & _ & H3).
  split; [|exact H3]. unfold draw in H1. rewrite H1.
  cbn [draw_detections].
  destruct (box_astype_int (box bad)) as [[[x1 y1] x2] y2].
  destruct (nth_error color_palette (class_index bad)) as [color|] eqn:Ec.
  - assert (Hn : nth_error color_palette (class_index bad) <> None)
      by congruence.
    apply nth_error_Some in Hn. lia.
  - cbn [fst snd]. now rewrite app_nil_r.
Qed.
End DrawingFacts.

Lemma draw_of_postprocess_succeeds_witness :
  exists dets,
    postprocess example_detector tied_outputs = Ok dets /\
    snd (draw_detections example_palette constant_format constant_text_size
                         example_detector dets) = None /\
    length (fst (draw_detections example_palette constant_format
                                 constant_text_size example_detector dets))
    = (3 * length dets)%nat.
Proof.
  eexists. split; [vm_compute; reflexivity|].
  apply (draw_of_postprocess_succeeds example_palette constant_format
           constant_text_size example_detector tied_outputs).
  - vm_compute. reflexivity.
  - simpl. lia.
Defined.

Lemma draw_stops_at_unknown_class_witness :
  let good := [mkDetection 1 (3 # 4) (24, 12, 40, 20)%Q "car"] in
  let bad := mkDetection 2 (1 # 2) (88, 44, 104, 52)%Q "bus" in
  let rest := [mkDetection 0 (1 # 4) (0, 0, 8, 8)%Q "person"] in
  draw_detections example_palette constant_format constant_text_size
                  example_detector (good ++ bad :: rest)
  = (fst (draw_detections example_palette constant_format constant_text_size
                          example_detector good),
     Some IndexError_color_palette) /\
  length (fst (draw_detections example_palette constant_format
                               constant_text_size example_detector good))
  = (3 * length good)%nat.
Proof.
  apply (draw_stops_at_unknown_class example_palette constant_format
           constant_text_size example_detector).
  - repeat constructor.
  - simpl. lia.
Defined.

(** * The empty result of the suppression *)

(** X16. When no candidate of a well-shaped raw output scores above the
    score threshold and every candidate's class has a name, the suppression
    keeps nothing and [postprocess] returns one detection per candidate,
    with the candidates' scores in anchor order. *)
Theorem nothing_kept_returns_every_candidate (self : YOLOv9)
        (outputs : tensor) :
  well_shaped outputs ->
  Forall (fun s => (s <= score_threshold self)%Q) (candidate_scores self outputs) ->
  Forall (fun c => (c < length (classes self))%nat)
         (map anchor_class (candidates self outputs)) ->
  kept_indices self outputs = [] /\
  exists dets,
    postprocess self outputs = Ok dets /\
    map confidence dets
    = map anchor_score (filter (above_conf self) (anchors outputs)).
Proof.
  intros Hw Hlow Hnames.
  destruct (postprocess_all_below_score self outputs Hw Hlow Hnames)
    as [Hk [dets [Hd Hc]]].
  split; [exact Hk|]. exists dets. split; [exact Hd|exact Hc].
Qed.

Lemma nothing_kept_returns_every_candidate_witness :
  kept_indices strict_detector middling_outputs = [] /\
  exists dets,
    postprocess strict_detector middling_outputs = Ok dets /\
    map confidence dets
    = map anchor_score
          (filter (above_conf strict_detector) (anchors middling_outputs)).
Proof.
  apply (nothing_kept_returns_every_candidate strict_detector middling_outputs).
  - split; simpl; lia.
  - repeat constructor; vm_compute; discriminate.
  - repeat constructor.
Defined.

(** * The returned list, entry by entry *)

(** [postprocess] returns a list on well-shaped raw outputs only. *)
Lemma postprocess_ok_well_shaped (self : YOLOv9) (outputs : tensor)
      (dets : list Detection) :
  postprocess self outputs = Ok dets -> well_shaped outputs.
Proof.
  intro H. unfold well_shaped.
  destruct (Nat.eq_dec (n_anchors outputs) 1) as [HN|HN].
  { rewrite postprocess_single_axis_raises in H by now right.
    discriminate H. }
  split; [|exact HN].
  destruct (Nat.le_gt_cases 5 (length outputs)) as [HF|HF]; [exact HF|].
  exfalso. unfold postprocess, decode, squeeze in H.
  destruct outputs as [|r [|r' rest]].
  - discriminate H.
  - destruct r as [|x [|y r]]; discriminate H.
  - destruct (Nat.eqb (n_anchors (r :: r' :: rest)) 1) eqn:E.
    { apply Nat.eqb_eq in E. contradiction. }
    cbn [T cols_from bind] in H. unfold max_axis1 in H. cbn [ncols_of] in H.
    replace (length (r :: r' :: rest) - 4)%nat with 0%nat in H
      by (simpl in HF |- *; lia).
    discriminate H.
Qed.

Lemma Forall2_map_r {A B C : Type} (R : A -> C -> Prop) (f : B -> C)
      (l : list A) (l' : list B) :
  Forall2 R l (map f l') -> Forall2 (fun a b => R a (f b)) l l'.
Proof.
  revert l. induction l' as [|b l' IH]; intros l H; inversion H; subst.
  - constructor.
  - constructor; [assumption|now apply IH].
Qed.

(** The rows zipped on line 91, from the candidate rows they select. *)
Lemma zipped_assembled {A : Type} (d0 : A) (rb : A -> ibox) (sc : A -> Q)
      (cl : A -> nat) (cands : list A) (indices : list nat) :
  Forall (fun i => (i < length cands)%nat) indices ->
  zipped (map rb cands) (map sc cands) (map cl cands) indices
  = map (fun a => (xywh2xyxy_box (rb a), sc a, cl a))
        (getitem d0 cands indices).
Proof.
  intro Hrange. unfold zipped. destruct indices as [|i indices].
  - cbn [getitem]. unfold xywh2xyxy. rewrite map_map, combine_map.
    now rewrite (combine_map (fun a => (xywh2xyxy_box (rb a), sc a)) cl).
  - cbn [getitem]. set (l := i :: indices) in *. unfold xywh2xyxy.
    rewrite map_map, combine_map.
    rewrite (combine_map
               (fun k => (xywh2xyxy_box (nth k (map rb cands) (0, 0, 0, 0)),
                          nth k (map sc cands) 0%Q))
               (fun k => nth k (map cl cands) 0%nat)).
    rewrite map_map. apply map_ext_in. intros k Hk.
    rewrite Forall_forall in Hrange. specialize (Hrange k Hk).
    rewrite (nth_indep (map rb cands) (0, 0, 0, 0) (rb d0))
      by now rewrite length_map.
    rewrite (nth_indep (map sc cands) 0%Q (sc d0)) by now rewrite length_map.
    rewrite (nth_indep (map cl cands) 0%nat (cl d0)) by now rewrite length_map.
    now rewrite !map_nth.
Qed.

(** The list [postprocess] returns, detection by detection: one per
    assembled candidate row, in the same order, with the score, the class
    and the rescaled box of that row. *)
Lemma postprocess_assembled (self : YOLOv9) (outputs : tensor)
      (dets : list Detection) :
  postprocess self outputs = Ok dets ->
  Forall2 (fun d a => confidence d = anchor_score a /\
                      class_index d = anchor_class a /\
                      box d = xywh2xyxy_box (rescale_box self a))
          dets (assembled_candidates self outputs).
Proof.
  intro Hd. pose proof (postprocess_ok_well_shaped _ _ _ Hd) as Hw.
  rewrite (postprocess_eq self outputs Hw) in Hd.
  apply assemble_rows in Hd. unfold rescale, candidate_scores in Hd.
  rewrite (zipped_assembled [] (rescale_box self) anchor_score anchor_class)
    in Hd by apply kept_indices_in_range.
  apply Forall2_map_r in Hd.
  eapply Forall2_impl; [|exact Hd].
  cbn [fst snd]. intros d a (H1 & H2 & H3 & _). now repeat split.
Qed.

(** * Rounding *)

Lemma pow2_pos (k : Z) : (0 < pow2 k)%Q.
Proof. apply Qpower_0_lt. reflexivity. Qed.

Lemma pow2_add (a b : Z) : (pow2 (a + b) == pow2 a * pow2 b)%Q.
Proof. apply Qpower_plus. discriminate. Qed.

Lemma pow2_le (a b : Z) : a <= b -> (pow2 a <= pow2 b)%Q.
Proof. intro H. apply Qpower_le_compat_l; [exact H|discriminate]. Qed.

Lemma pow2_Z (k : Z) : 0 <= k -> (pow2 k == inject_Z (2 ^ k))%Q.
Proof. intro H. unfold pow2. now rewrite (Zpower_Qpower 2 k H). Qed.

(** The exponent found is not above that of the number. *)
Lemma ilog2_le (q : Q) : (0 < q)%Q -> (pow2 (ilog2 q) <= q)%Q.
Proof.
  intro Hq. unfold ilog2. destruct q as [n d]. cbn [Qnum Qden] in *.
  set (a := Z.log2 n). set (b := Z.log2 (Zpos d)).
  destruct (Qle_bool (pow2 (a - b)) (n # d)) eqn:E.
  - now apply Qle_bool_iff.
  - assert (Hn : 0 < n).
    { unfold Qlt in Hq. simpl in Hq. lia. }
    destruct (Z.log2_spec n Hn) as [Ha _].
    destruct (Z.log2_spec (Zpos d) (Pos2Z.is_pos _)) as [_ Hb].
    fold a in Ha. fold b in Hb.
    assert (Ha0 : 0 <= a) by apply Z.log2_nonneg.
    assert (Hb0 : 0 <= b) by apply Z.log2_nonneg.
    replace (a - b - 1) with (a + - (b + 1)) by lia.
    rewrite pow2_add. unfold pow2 at 2. rewrite Qpower_opp.
    fold (pow2 (b + 1)). rewrite (pow2_Z a Ha0), (pow2_Z (b + 1)) by lia.
    rewrite (Qmake_Qdiv n d).
    replace (Z.succ b) with (b + 1) in Hb by lia.
    assert (H1 : (0 < inject_Z (2 ^ (b + 1)))%Q).
    { rewrite <- (pow2_Z (b + 1)) by lia. apply pow2_pos. }
    assert (H2 : (0 < inject_Z (Zpos d))%Q) by reflexivity.
    assert (H3 : (inject_Z (2 ^ a) <= inject_Z n)%Q)
      by (rewrite <- Zle_Qle; exact Ha).
    assert (H4 : (inject_Z (Zpos d) <= inject_Z (2 ^ (b + 1)))%Q)
      by (rewrite <- Zle_Qle; lia).
    assert (H5 : (0 <= inject_Z (2 ^ a))%Q).
    { rewrite <- (pow2_Z a Ha0). apply Qlt_le_weak, pow2_pos. }
    apply Qle_shift_div_l; [exact H2|].
    unfold Qdiv. rewrite <- Qmult_assoc, (Qmult_comm (/ _)), Qmult_assoc.
    apply Qle_shift_div_r; [exact H1|].
    nra.
Qed.

Lemma round_half_even_near (q : Q) :
  (Qabs (inject_Z (round_half_even q) - q) <= 1 # 2)%Q.
Proof.
  unfold round_half_even.
  pose proof (Qfloor_le q) as Hlo. pose proof (Qlt_floor q) as Hhi.
  rewrite inject_Z_plus in Hhi. change (inject_Z 1) with 1%Q in Hhi.
  apply Qabs_Qle_condition.
  destruct (q - inject_Z (Qfloor q) ?= 1 # 2)%Q eqn:E.
  - apply Qeq_alt in E. destruct (Z.even (Qfloor q));
      rewrite ?inject_Z_plus; change (inject_Z 1) with 1%Q; split; lra.
  - apply Qlt_alt in E. split; lra.
  - apply Qgt_alt in E. rewrite inject_Z_plus.
    change (inject_Z 1) with 1%Q. split; lra.
Qed.

Lemma round_half_even_Z (q : Q) (k : Z) :
  (q == inject_Z k)%Q -> round_half_even q = k.
Proof.
  intro H. unfold round_half_even.
  rewrite (Qfloor_comp q (inject_Z k) H), Qfloor_Z.
  assert (E : (q - inject_Z k ?= 1 # 2)%Q = Lt). { apply (proj1 (Qlt_alt _ _)). lra. }
  now rewrite E.
Qed.

(** The magnitude of a rounded number: within half a quantum of the
    magnitude of the number. *)
Lemma round_magnitude_error (prec emin : Z) (a : Q) :
  (0 < a)%Q ->
  let qe := Z.max (ilog2 a - (prec - 1)) (emin - (prec - 1)) in
  (Qabs (inject_Z (round_half_even (a / pow2 qe)) * pow2 qe - a)
   <= a * pow2 (- prec) + pow2 (emin - prec))%Q.
Proof.
  intros Hpos qe. set (e := ilog2 a) in *.
  set (m := round_half_even (a / pow2 qe)).
  pose proof (ilog2_le a Hpos) as He. fold e in He.
  pose proof (round_half_even_near (a / pow2 qe)) as Hm. fold m in Hm.
  pose proof (pow2_pos qe) as Hqe.
  assert (Herr : (Qabs (inject_Z m * pow2 qe - a) <= pow2 qe * (1 # 2))%Q).
  { apply Qabs_Qle_condition in Hm. apply Qabs_Qle_condition.
    assert (Hd : (a / pow2 qe * pow2 qe == a)%Q).
    { field. intro Hc. rewrite Hc in Hqe. discriminate Hqe. }
    set (t := (a / pow2 qe)%Q) in *. nra. }
  assert (Hhalf : (pow2 qe * (1 # 2) <= a * pow2 (- prec) + pow2 (emin - prec))%Q).
  { pose proof (pow2_pos (- prec)). pose proof (pow2_pos (emin - prec)).
    pose proof (pow2_pos e).
    assert (H12 : (pow2 (-1) == 1 # 2)%Q) by reflexivity.
    rewrite <- H12, <- pow2_add.
    unfold qe. destruct (Z.max_spec (e - (prec - 1)) (emin - (prec - 1)))
      as [[_ ->]|[_ ->]].
    - replace (emin - (prec - 1) + -1) with (emin - prec) by lia. nra.
    - replace (e - (prec - 1) + -1) with (e + - prec) by lia.
      rewrite pow2_add. nra. }
  lra.
Qed.

Lemma Qle_bool_false (x y : Q) : Qle_bool x y = false <-> (y < x)%Q.
Proof.
  split; intro H.
  - apply Qnot_le_lt. intro Hle. apply Qle_bool_iff in Hle. congruence.
  - destruct (Qle_bool x y) eqn:E; [|reflexivity].
    apply Qle_bool_iff in E. lra.
Qed.

(** The error of a rounding that stays finite. *)
Lemma round_binary_error (prec emin emax : Z) (q r : Q) :
  round_binary prec emin emax q = Finite r ->
  (Qabs (r - q) <= Qabs q * pow2 (- prec) + pow2 (emin - prec))%Q.
Proof.
  unfold round_binary.
  destruct (Qle_bool (Qabs q) 0) eqn:Ez.
  - apply Qle_bool_iff in Ez. intro H. injection H as <-.
    assert (Hq0 : (q == 0)%Q).
    { apply Qabs_Qle_condition in Ez. lra. }
    pose proof (pow2_pos (- prec)). pose proof (pow2_pos (emin - prec)).
    rewrite Hq0. change (Qabs (0 - 0)) with 0%Q. change (Qabs 0) with 0%Q. nra.
  - apply Qle_bool_false in Ez.
    pose proof (round_magnitude_error prec emin (Qabs q) Ez) as Herr.
    cbv zeta in Herr.
    set (r0 := (inject_Z _ * pow2 _)%Q) in *.
    destruct (Qle_bool (pow2 (emax + 1)) r0); [discriminate|].
    intro H. injection H as <-. rewrite Qred_correct.
    apply Qabs_Qle_condition in Herr. apply Qabs_Qle_condition.
    destruct (Qle_bool 0 q) eqn:Es.
    + apply Qle_bool_iff in Es. pose proof (Qabs_pos q Es). lra.
    + apply Qle_bool_false in Es.
      assert (Hq : (Qabs q == - q)%Q) by (apply Qabs_neg; lra). lra.
Qed.

(** A rounding stays finite when the number is far enough from the end of
    the range. *)
Lemma round_binary_finite (prec emin emax : Z) (q : Q) :
  (Qabs q * (1 + pow2 (- prec)) + pow2 (emin - prec) < pow2 (emax + 1))%Q ->
  exists r, round_binary prec emin emax q = Finite r.
Proof.
  intro Hsmall. unfold round_binary.
  destruct (Qle_bool (Qabs q) 0) eqn:Ez; [now eexists|].
  apply Qle_bool_false in Ez.
  pose proof (round_magnitude_error prec emin (Qabs q) Ez) as Herr.
  cbv zeta in Herr. apply Qabs_Qle_condition in Herr.
  set (r0 := (inject_Z _ * pow2 _)%Q) in *.
  destruct (Qle_bool (pow2 (emax + 1)) r0) eqn:Eo; [|now eexists].
  apply Qle_bool_iff in Eo. exfalso. lra.
Qed.

(** Small integers are represented exactly. *)
Lemma round_binary_int (prec emin emax n : Z) :
  emin <= prec - 1 -> prec <= emax + 1 ->
  0 <= n -> (inject_Z n < pow2 prec)%Q ->
  round_binary prec emin emax (inject_Z n) = Finite (inject_Z n).
Proof.
  intros Hemin Hemax Hn Hlt.
  destruct (Z.eq_dec n 0) as [->|Hnz]; [reflexivity|].
  assert (Ha : Qabs (inject_Z n) = inject_Z n).
  { unfold inject_Z, Qabs. now rewrite Z.abs_eq. }
  assert (Hpos : (0 < inject_Z n)%Q).
  { change 0%Q with (inject_Z 0). rewrite <- Zlt_Qlt. lia. }
  unfold round_binary. rewrite Ha.
  rewrite (proj2 (Qle_bool_false (inject_Z n) 0) Hpos).
  set (e := ilog2 (inject_Z n)).
  set (qe := Z.max (e - (prec - 1)) (emin - (prec - 1))).
  assert (He : e < prec).
  { apply (Qpower_lt_compat_l_inv 2); [|reflexivity].
    eapply Qle_lt_trans; [apply (ilog2_le _ Hpos)|exact Hlt]. }
  assert (Hqe : qe <= 0) by (unfold qe; lia).
  assert (Hinv : (/ pow2 qe == inject_Z (2 ^ (- qe)))%Q).
  { rewrite <- pow2_Z by lia. unfold pow2. now rewrite Qpower_opp. }
  assert (Hm : round_half_even (inject_Z n / pow2 qe) = n * 2 ^ (- qe)).
  { apply round_half_even_Z. unfold Qdiv. rewrite Hinv.
    now rewrite inject_Z_mult. }
  rewrite Hm.
  assert (Hr : (inject_Z (n * 2 ^ (- qe)) * pow2 qe == inject_Z n)%Q).
  { rewrite inject_Z_mult, <- Hinv. field.
    pose proof (pow2_pos qe) as Hp. intro Hc. rewrite Hc in Hp.
    discriminate Hp. }
  assert (Hno : Qle_bool (pow2 (emax + 1))
                         (inject_Z (n * 2 ^ (- qe)) * pow2 qe) = false).
  { apply Qle_bool_false. rewrite Hr.
    eapply Qlt_le_trans; [exact Hlt|]. now apply pow2_le. }
  rewrite Hno.
  assert (Hs : Qle_bool 0 (inject_Z n) = true).
  { apply Qle_bool_iff. now apply Qlt_le_weak. }
  rewrite Hs. f_equal. rewrite (Qred_complete _ _ Hr).
  apply Qcanon.Qred_identity. simpl. apply Z.gcd_1_r.
Qed.

(** Truncation toward zero: between zero and the number, less than one
    away from it. *)
Lemma Qtrunc_spec (q : Q) :
  ((0 <= q -> inject_Z (Qtrunc q) <= q /\ q < inject_Z (Qtrunc q) + 1) /\
   (q <= 0 -> q <= inject_Z (Qtrunc q) /\ inject_Z (Qtrunc q) - 1 < q))%Q.
Proof.
  destruct q as [n d]. unfold Qtrunc. cbn [Qnum Qden].
  pose proof (Z.quot_rem' n (Zpos d)) as Hqr.
  assert (Hpos : 0 <= n -> 0 <= Z.rem n (Zpos d) < Zpos d).
  { intro Hn. apply Z.rem_bound_pos; [exact Hn|apply Pos2Z.is_pos]. }
  assert (Hneg : n <= 0 -> - Zpos d < Z.rem n (Zpos d) <= 0).
  { intro Hn.
    pose proof (Z.rem_bound_abs n (Zpos d) ltac:(lia)).
    pose proof (Z.rem_nonpos n (Zpos d) ltac:(lia) Hn). lia. }
  set (t := Z.quot n (Zpos d)) in *. set (r := Z.rem n (Zpos d)) in *.
  clearbody t r.
  unfold Qle, Qlt, Qplus, Qminus, Qopp, inject_Z. simpl.
  rewrite ?Z.mul_1_r, ?Pos.mul_1_r.
  split; intro H.
  - specialize (Hpos ltac:(lia)). split; nia.
  - specialize (Hneg ltac:(lia)). split; nia.
Qed.

(** The scaling of lines 86-88 against the exact one: for sizes below 2^24
    and a scaled value of at most 2^19 in magnitude, the int32 result is
    less than 9/8 away from the exact value. *)
Lemma scale_coordinate_accuracy (b : Q) (input original : Z) :
  0 < input < 2 ^ 24 ->
  0 < original < 2 ^ 24 ->
  (Qabs (scaled_exactly b input original) <= 524288)%Q ->
  (Qabs (inject_Z (scale_coordinate b input original)
         - scaled_exactly b input original) < 9 # 8)%Q.
Proof.
  intros Hin Hor HE. unfold scaled_exactly in *.
  set (c := (b / inject_Z input)%Q) in *.
  set (W := inject_Z original) in *.
  assert (HW : (1 <= W /\ W <= 16777216)%Q).
  { unfold W. split.
    - change 1%Q with (inject_Z 1). rewrite <- Zle_Qle. lia.
    - change 16777216%Q with (inject_Z 16777216). rewrite <- Zle_Qle. lia. }
  assert (HWabs : Qabs W = W).
  { unfold W, inject_Z, Qabs. rewrite Z.abs_eq by lia. reflexivity. }
  pose proof (Qabs_nonneg c) as HA0.
  assert (HcW : (Qabs c * W <= 524288)%Q).
  { rewrite <- HWabs at 1. now rewrite <- Qabs_Qmult. }
  assert (Hu : (pow2 (- (24)) == 1 # 16777216)%Q) by reflexivity.
  assert (Hu' : (pow2 (- (53)) == 1 # 9007199254740992)%Q) by reflexivity.
  assert (He : (pow2 (-126 - 24) <= 1 # 1152921504606846976)%Q).
  { change (1 # 1152921504606846976)%Q with (pow2 (-60)). now apply pow2_le. }
  assert (He' : (pow2 (-1022 - 53) <= 1 # 1152921504606846976)%Q).
  { change (1 # 1152921504606846976)%Q with (pow2 (-60)). now apply pow2_le. }
  pose proof (pow2_pos (-126 - 24)) as He0.
  pose proof (pow2_pos (-1022 - 53)) as He0'.
  assert (Hbig : (1073741824 <= pow2 (127 + 1))%Q).
  { change 1073741824%Q with (pow2 30). now apply pow2_le. }
  assert (Hbig' : (1073741824 <= pow2 (1023 + 1))%Q).
  { change 1073741824%Q with (pow2 30). now apply pow2_le. }
  (* the divisor *)
  assert (Hd : round_float32 (inject_Z input) = Finite (inject_Z input)).
  { apply round_binary_int; try lia.
    change (pow2 24) with (inject_Z (2 ^ 24)). rewrite <- Zlt_Qlt. lia. }
  assert (Hnz : Qeq_bool (inject_Z input) 0 = false).
  { destruct (Qeq_bool (inject_Z input) 0) eqn:E; [|reflexivity].
    apply Qeq_bool_iff in E. unfold Qeq in E. simpl in E. lia. }
  (* the quotient *)
  destruct (round_binary_finite 24 (-126) 127 c) as [x Hx]; [nra|].
  pose proof (round_binary_error _ _ _ _ _ Hx) as Ex.
  apply Qabs_Qle_condition in Ex.
  (* the product in float64 *)
  assert (Hw : round_float64 W = Finite W).
  { apply round_binary_int; try lia.
    eapply Qlt_le_trans; [|apply (pow2_le 24 53); lia].
    change (pow2 24) with (inject_Z (2 ^ 24)). unfold W.
    rewrite <- Zlt_Qlt. lia. }
  assert (Ex' : (- (Qabs c * (1 # 16777216) + (1 # 1152921504606846976))
                 <= x - c
                 <= Qabs c * (1 # 16777216) + (1 # 1152921504606846976))%Q).
  { rewrite Hu in Ex. lra. }
  assert (Hz : (- (1 # 16) <= x * W - c * W <= 1 # 16)%Q).
  { clear - Ex' HcW HW HA0. destruct Ex' as [E1 E2], HW as [W1 W2].
    assert (HW0 : (0 <= W)%Q) by lra.
    pose proof (Qmult_le_compat_r _ _ W E1 HW0) as P1.
    pose proof (Qmult_le_compat_r _ _ W E2 HW0) as P2.
    set (A := Qabs c) in *. set (AW := (A * W)%Q).
    assert (R1 : ((A * (1 # 16777216) + (1 # 1152921504606846976)) * W
                  == AW * (1 # 16777216) + (1 # 1152921504606846976) * W)%Q)
      by (unfold AW; ring).
    assert (R2 : ((x - c) * W == x * W - c * W)%Q) by ring.
    assert (R3 : (- (A * (1 # 16777216) + (1 # 1152921504606846976)) * W
                  == - (AW * (1 # 16777216) + (1 # 1152921504606846976) * W))%Q)
      by (unfold AW; ring).
    rewrite R1, R2 in P2. rewrite R3, R2 in P1.
    fold AW in HcW. clearbody AW. lra. }
  assert (HzE : (- (524288) <= c * W <= 524288)%Q).
  { apply Qabs_Qle_condition in HE. lra. }
  assert (HzB : (- (524289) <= x * W <= 524289)%Q) by lra.
  assert (Hzabs : (Qabs (x * W) <= 524289)%Q)
    by now apply Qabs_Qle_condition.
  destruct (round_binary_finite 53 (-1022) 1023 (x * W)) as [z Hzf].
  { rewrite Hu'. lra. }
  pose proof (round_binary_error _ _ _ _ _ Hzf) as Ez.
  apply Qabs_Qle_condition in Ez. rewrite Hu' in Ez.
  assert (Hz'B : (- (524290) <= z <= 524290)%Q) by lra.
  assert (Hz'abs : (Qabs z <= 524290)%Q)
    by now apply Qabs_Qle_condition.
  (* the cast back to float32 *)
  destruct (round_binary_finite 24 (-126) 127 z) as [y Hy].
  { rewrite Hu. lra. }
  pose proof (round_binary_error _ _ _ _ _ Hy) as Ey.
  apply Qabs_Qle_condition in Ey. rewrite Hu in Ey.
  assert (Hz1 : (Qabs z <= 524289)%Q).
  { apply Qabs_Qle_condition. lra. }
  assert (Hz2 : (- (1 # 30) <= x * W - c * W <= 1 # 30)%Q).
  { clear - Ex' HcW HW HA0. destruct Ex' as [E1 E2], HW as [W1 W2].
    assert (HW0 : (0 <= W)%Q) by lra.
    pose proof (Qmult_le_compat_r _ _ W E1 HW0) as P1.
    pose proof (Qmult_le_compat_r _ _ W E2 HW0) as P2.
    set (A := Qabs c) in *. set (AW := (A * W)%Q).
    assert (R1 : ((A * (1 # 16777216) + (1 # 1152921504606846976)) * W
                  == AW * (1 # 16777216) + (1 # 1152921504606846976) * W)%Q)
      by (unfold AW; ring).
    assert (R2 : ((x - c) * W == x * W - c * W)%Q) by ring.
    assert (R3 : (- (A * (1 # 16777216) + (1 # 1152921504606846976)) * W
                  == - (AW * (1 # 16777216) + (1 # 1152921504606846976) * W))%Q)
      by (unfold AW; ring).
    rewrite R1, R2 in P2. rewrite R3, R2 in P1.
    fold AW in HcW. clearbody AW. lra. }
  assert (HyE : (- (1 # 8) < y - c * W < 1 # 8)%Q) by lra.
  (* the cast to int32 *)
  unfold scale_coordinate, divide_float32, imul_float32.
  rewrite Hd, Hnz. fold c. unfold round_float32 at 1. rewrite Hx.
  fold W. rewrite Hw. unfold round_float64. rewrite Hzf.
  unfold round_float32. rewrite Hy. unfold astype_int32.
  destruct (Qtrunc_spec y) as [Hp Hn].
  set (t := Qtrunc y) in *.
  assert (Ht : (- (1) < inject_Z t - y < 1)%Q).
  { destruct (Qlt_le_dec y 0) as [Hneg|Hpos].
    - specialize (Hn (Qlt_le_weak _ _ Hneg)). lra.
    - specialize (Hp Hpos). lra. }
  assert (Hrange : - 2 ^ 31 <= t < 2 ^ 31).
  { assert (H1 : (inject_Z (- 2 ^ 31) <= inject_Z t)%Q).
    { change (inject_Z (- 2 ^ 31)) with (- (2147483648))%Q. lra. }
    assert (H2 : (inject_Z t < inject_Z (2 ^ 31))%Q).
    { change (inject_Z (2 ^ 31)) with 2147483648%Q. lra. }
    rewrite <- Zle_Qle in H1. rewrite <- Zlt_Qlt in H2. lia. }
  replace ((- 2 ^ 31 <=? t) && (t <? 2 ^ 31)) with true
    by (symmetry; apply andb_true_iff; split;
        [apply Z.leb_le|apply Z.ltb_lt]; lia).
  apply Qabs_Qlt_condition. lra.
Qed.

(** * The order and the boxes of the returned list *)

Lemma Forall2_and_Forall_r {A B : Type} (R : A -> B -> Prop) (P : B -> Prop)
      (l : list A) (l' : list B) :
  Forall2 R l l' -> Forall P l' -> Forall2 (fun a b => R a b /\ P b) l l'.
Proof.
  induction 1 as [|a b l l' Hab _ IH]; intro HP.
  - constructor.
  - inversion HP; subst. constructor; [now split|now apply IH].
Qed.

Lemma Forall2_map_eq {A B C : Type} (f : A -> C) (g : B -> C)
      (l : list A) (l' : list B) :
  Forall2 (fun a b => f a = g b) l l' -> map f l = map g l'.
Proof.
  induction 1 as [|a b l l' Hab _ IH]; simpl; [reflexivity|].
  now rewrite Hab, IH.
Qed.

(** C1, as the code has it. Whenever some candidate scores above the score
    threshold (or there is no candidate at all), the list [detect] returns
    is the list of the candidates kept by the suppression, one detection
    per kept index and in the order of the kept indices: the detection at a
    position carries the score, the class and the rescaled box of the
    candidate whose index stands at that position.  That order is by
    descending confidence, ties by ascending candidate index; the class
    index plays no part in it. *)
Theorem detect_order_confidence_then_index
        (InputTensor : Type) (to_input_tensor : Image -> Z -> Z -> InputTensor)
        (session_run : InputTensor -> tensor) (self : YOLOv9) (i : Image)
        (dets : list Detection) :
  let outputs :=
    session_run (to_input_tensor i (input_width self) (input_height self)) in
  Exists (fun s => (score_threshold self < s)%Q) (candidate_scores self outputs)
  \/ candidates self outputs = [] ->
  snd (detect InputTensor to_input_tensor session_run self i) = Ok dets ->
  Forall2 (fun d k =>
             exists a,
               nth_error (candidates self outputs) k = Some a /\
               confidence d = score_at (candidate_scores self outputs) k /\
               confidence d = anchor_score a /\
               class_index d = anchor_class a /\
               box d = xywh2xyxy_box (rescale_box self a))
          dets (kept_indices self outputs) /\
  StronglySorted (precedes (candidate_scores self outputs))
                 (kept_indices self outputs) /\
  StronglySorted (fun d1 d2 => (confidence d2 <= confidence d1)%Q) dets.
Proof.
  intros outputs Hsome Hdet. rewrite detect_eq in Hdet. cbn [snd] in Hdet.
  fold outputs in Hdet.
  pose proof (postprocess_assembled self outputs dets Hdet) as Hrows.
  pose proof (kept_indices_in_range self outputs) as Hrange.
  assert (Hk : Forall2 (fun d k =>
                          exists a,
                            nth_error (candidates self outputs) k = Some a /\
                            confidence d
                            = score_at (candidate_scores self outputs) k /\
                            confidence d = anchor_score a /\
                            class_index d = anchor_class a /\
                            box d = xywh2xyxy_box (rescale_box self a))
                       dets (kept_indices self outputs)).
  { unfold assembled_candidates in Hrows.
    destruct (kept_indices self outputs) as [|k ks] eqn:Ek.
    - destruct Hsome as [Hex|Hnil].
      + exfalso. exact (kept_indices_nonempty self outputs Hex Ek).
      + rewrite Hnil in Hrows. cbn [getitem] in Hrows.
        inversion Hrows; subst. constructor.
    - rewrite getitem_nonempty in Hrows by discriminate.
      apply Forall2_map_r in Hrows.
      eapply Forall2_impl;
        [|exact (Forall2_and_Forall_r _ _ _ _ Hrows Hrange)].
      cbv beta. intros d n [(H1 & H2 & H3) Hn].
      exists (nth n (candidates self outputs) []).
      split; [now apply nth_error_nth'|]. split; [|now repeat split].
      rewrite H1. unfold score_at, candidate_scores.
      rewrite (nth_indep _ 0%Q (anchor_score [])) by now rewrite length_map.
      now rewrite map_nth. }
  split; [exact Hk|].
  assert (Hsorted : StronglySorted (precedes (candidate_scores self outputs))
                                   (kept_indices self outputs)).
  { apply (nms_sorted ibox (0, 0, 0, 0) rectOverlap). }
  split; [exact Hsorted|].
  apply (proj2 (StronglySorted_map (fun x y => (y <= x)%Q) confidence dets)).
  rewrite (Forall2_map_eq confidence
             (score_at (candidate_scores self outputs))
             dets (kept_indices self outputs)).
  - apply kept_scores_descending.
  - eapply Forall2_impl; [|exact Hk]. cbv beta. intros d n (a & _ & H & _).
    exact H.
Qed.

Lemma detect_order_confidence_then_index_witness :
  exists dets,
    snd (detect Image image_as_tensor (constant_runtime tied_outputs)
                example_detector example_image) = Ok dets /\
    Forall2 (fun d k =>
               exists a,
                 nth_error (candidates example_detector tied_outputs) k
                 = Some a /\
                 confidence d
                 = score_at (candidate_scores example_detector tied_outputs) k /\
                 confidence d = anchor_score a /\
                 class_index d = anchor_class a /\
                 box d = xywh2xyxy_box (rescale_box example_detector a))
            dets (kept_indices example_detector tied_outputs) /\
    StronglySorted (precedes (candidate_scores example_detector tied_outputs))
                   (kept_indices example_detector tied_outputs) /\
    StronglySorted (fun d1 d2 => (confidence d2 <= confidence d1)%Q) dets.
Proof.
  eexists. split; [vm_compute; reflexivity|].
  apply (detect_order_confidence_then_index Image image_as_tensor
           (constant_runtime tied_outputs) example_detector example_image).
  - left. vm_compute. constructor. reflexivity.
  - vm_compute. reflexivity.
Defined.

(** C10. The boxes [detect] returns are scaled to [image_width] and
    [image_height], the [original_size] given at construction: the box of
    each detection is the corner form of the first four fields of its
    candidate row, each divided by the input size in float32, multiplied by
    [image_width] or [image_height] and cast to int32.  The height and width
    recorded from the image play no part: the same list comes back whatever
    [img_height] and [img_width] held, and the shape of the image does not
    enter the scaling.  The scaling is the exact one up to rounding: for
    sizes below 2^24 and scaled values of magnitude at most 2^19, the
    result is less than 9/8 away from field * original / input. *)
Theorem detect_boxes_scaled_by_original_size
        (InputTensor : Type) (to_input_tensor : Image -> Z -> Z -> InputTensor)
        (session_run : InputTensor -> tensor) (self : YOLOv9) (i : Image)
        (dets : list Detection) :
  snd (detect InputTensor to_input_tensor session_run self i) = Ok dets ->
  let outputs :=
    session_run (to_input_tensor i (input_width self) (input_height self)) in
  let scaled := fun (b : Q) (input original : Z) =>
    astype_int32 (imul_float32 (divide_float32 b input) original) in
  Forall2 (fun d a =>
             box d
             = xywh2xyxy_box
                 (scaled (nth 0 a 0%Q) (input_width self) (image_width self),
                  scaled (nth 1 a 0%Q) (input_height self) (image_height self),
                  scaled (nth 2 a 0%Q) (input_width self) (image_width self),
                  scaled (nth 3 a 0%Q) (input_height self) (image_height self)))
          dets (assembled_candidates self outputs) /\
  (forall h w : option nat,
      snd (detect InputTensor to_input_tensor session_run
                  (set_img_shape self h w) i) = Ok dets) /\
  (forall (b : Q) (input original : Z),
      0 < input < 2 ^ 24 -> 0 < original < 2 ^ 24 ->
      (Qabs (scaled_exactly b input original) <= 524288)%Q ->
      (Qabs (inject_Z (scaled b input original)
             - scaled_exactly b input original) < 9 # 8)%Q).
Proof.
  intros Hdet outputs scaled. split; [|split].
  - rewrite detect_eq in Hdet. cbn [snd] in Hdet. fold outputs in Hdet.
    eapply Forall2_impl; [|exact (postprocess_assembled _ _ _ Hdet)].
    cbv beta. intros d a (_ & _ & Hb). exact Hb.
  - intros h w. rewrite <- Hdet, !detect_eq. cbn [snd].
    cbn [input_width input_height set_img_shape].
    apply postprocess_config. repeat split.
  - intros b input original. apply scale_coordinate_accuracy.
Qed.

Lemma detect_boxes_scaled_by_original_size_witness :
  exists dets,
    snd (detect Image image_as_tensor (constant_runtime tied_outputs)
                example_detector example_image) = Ok dets /\
    let scaled := fun (b : Q) (input original : Z) =>
      astype_int32 (imul_float32 (divide_float32 b input) original) in
    Forall2 (fun d a =>
               box d
               = xywh2xyxy_box
                   (scaled (nth 0 a 0%Q) 64 128, scaled (nth 1 a 0%Q) 64 64,
                    scaled (nth 2 a 0%Q) 64 128, scaled (nth 3 a 0%Q) 64 64))
            dets (assembled_candidates example_detector tied_outputs) /\
    (forall h w : option nat,
        snd (detect Image image_as_tensor (constant_runtime tied_outputs)
                    (set_img_shape example_detector h w) example_image)
        = Ok dets) /\
    (forall (b : Q) (input original : Z),
        0 < input < 2 ^ 24 -> 0 < original < 2 ^ 24 ->
        (Qabs (scaled_exactly b input original) <= 524288)%Q ->
        (Qabs (inject_Z (scaled b input original)
               - scaled_exactly b input original) < 9 # 8)%Q).
Proof.
  eexists. split; [vm_compute; reflexivity|].
  apply (detect_boxes_scaled_by_original_size Image image_as_tensor
           (constant_runtime tied_outputs) example_detector example_image).
  vm_compute. reflexivity.
Defined.

(** The scaling of lines 86-88 on fields where float32 rounds: 104 / 640 is
    not a float32, and the scaled value falls just below 117. *)
Lemma scale_coordinate_rounds :
  scale_coordinate 104 640 720 = 116 /\
  scale_coordinate 2147483648 1 1 = - 2 ^ 31 /\
  scale_coordinate (- (5) # 2) 1 1 = - 2 /\
  scale_coordinate 16 0 128 = - 2 ^ 31.
Proof.
  repeat split; vm_compute; reflexivity.
Qed.
